(** * Minesweeper core: the [Square] and [Game] classes of minesweeper.py

    A shallow embedding of the rules engine (board construction, flagging,
    opening with the auto-open cascade, win/loss queries) together with the
    properties of the specification that concern it.

    Modelling choices.
    - Python integers are [Z]; a coordinate is a pair of integers.
    - [Game._squares] is a Python dict: an insertion-ordered mapping.  It is
      modelled as an association list read through its first binding for a
      key; iteration over [keys()] follows the list order.  Every square is
      an object of its own, so assigning to an attribute of [self[coords]]
      changes the binding of [coords] and no other.
    - A read-only method returns a [result]: a value or a raised exception.
      A mutating method returns an [outcome]: the state it leaves the game
      in, on return as well as on an exception.
    - A call chain deeper than the interpreter's recursion limit raises
      [RecursionError]; the limit is the [fuel] argument of [open], counted
      in nested calls of [open].
    - [random.sample] draws from a stream [rnd] of numbers; the properties
      of construction hold for every stream. *)

From Stdlib Require Import ZArith Lia.
From stdpp Require Import base decidable numbers option list.

Local Open Scope Z_scope.

(** ** Exceptions and results *)

Inductive exn : Type :=
  | KeyError
  | ValueError
  | RecursionError.

Inductive result (A : Type) : Type :=
  | Ok (a : A)
  | Raise (e : exn).

Arguments Ok {A} a.
Arguments Raise {A} e.

#[global] Instance result_ret : MRet result := fun A a => Ok a.

#[global] Instance result_bind : MBind result := fun A B k m =>
  match m with
  | Ok a => k a
  | Raise e => Raise e
  end.

(** ** Squares *)

Record Square : Type := mkSquare {
  opened : bool;
  mine : bool;
  flagged : bool
}.

(** [Square()] with the default arguments of [Square.__init__]. *)
Definition Square_init : Square := mkSquare false false false.

Definition set_opened (v : bool) (sq : Square) : Square :=
  mkSquare v (mine sq) (flagged sq).

Definition set_mine (v : bool) (sq : Square) : Square :=
  mkSquare (opened sq) v (flagged sq).

Definition set_flagged (v : bool) (sq : Square) : Square :=
  mkSquare (opened sq) (mine sq) v.

(** ** The dict of squares *)

Definition coord : Type := (Z * Z)%type.

Definition coord_eqb (c d : coord) : bool :=
  (fst c =? fst d) && (snd c =? snd d).

Definition dict : Type := list (coord * Square).

Fixpoint dict_get (d : dict) (c : coord) : option Square :=
  match d with
  | [] => None
  | (k, sq) :: d' => if coord_eqb k c then Some sq else dict_get d' c
  end.

(** In-place mutation of the square object bound to [c]. *)
Fixpoint dict_modify (f : Square -> Square) (d : dict) (c : coord) : dict :=
  match d with
  | [] => []
  | (k, sq) :: d' =>
      if coord_eqb k c then (k, f sq) :: d' else (k, sq) :: dict_modify f d' c
  end.

(** ** Games *)

Record Game : Type := mkGame {
  width : Z;
  height : Z;
  mines : Z;
  _squares : dict
}.

Definition with_squares (g : Game) (d : dict) : Game :=
  mkGame (width g) (height g) (mines g) d.

(** [Game.__getitem__]: [self._squares[coords]]. *)
Definition getitem (g : Game) (c : coord) : result Square :=
  match dict_get (_squares g) c with
  | Some sq => Ok sq
  | None => Raise KeyError
  end.

(** ** Method calls that mutate the game

    A mutating method either returns or raises, and in both cases leaves the
    game in some state: what was assigned before an exception stays
    assigned. *)

Inductive outcome : Type :=
  | Returns (g : Game)
  | Raises (e : exn) (g : Game).

Definition state_of (o : outcome) : Game :=
  match o with
  | Returns g => g
  | Raises _ g => g
  end.

(** Evaluate a read-only expression in state [g]; its exception propagates. *)
Definition query {A : Type} (g : Game) (r : result A) (k : A -> outcome)
  : outcome :=
  match r with
  | Ok a => k a
  | Raise e => Raises e g
  end.

(** Sequencing of two mutating steps. *)
Definition and_then (o : outcome) (k : Game -> outcome) : outcome :=
  match o with
  | Returns g => k g
  | Raises e g => Raises e g
  end.

Notation "x ← r 'at' g ; k" := (query g r (fun x => k))
  (at level 20, r at level 100, g at level 9, k at level 200, only parsing).

Notation "g' ⇐ o ; k" := (and_then o (fun g' => k))
  (at level 20, o at level 100, k at level 200, only parsing).

(** [self[coords].attr = v]: look the square up, then mutate it. *)
Definition setattr (g : Game) (c : coord) (f : Square -> Square) : outcome :=
  _ ← getitem g c at g;
  Returns (with_squares g (dict_modify f (_squares g) c)).

(** [Game.all_coords]: the keys of the dict, in insertion order. *)
Definition all_coords (g : Game) : list coord := map fst (_squares g).

(** A [for] loop whose body mutates the game. *)
Definition for_each (body : Game -> coord -> outcome)
  : Game -> list coord -> outcome :=
  fix go (g : Game) (l : list coord) : outcome :=
    match l with
    | [] => Returns g
    | c :: l' => g' ⇐ body g c; go g' l'
    end.

(** [x in range(n)] for an integer [x]. *)
Definition in_range (x n : Z) : bool := (0 <=? x) && (x <? n).

(** [range(n)] as a list. *)
Definition range (n : Z) : list Z := seqZ 0 n.

(** [Game.toggle_flag]. *)
Definition toggle_flag (g : Game) (c : coord) : outcome :=
  sq ← getitem g c at g;
  if negb (opened sq)
  then setattr g c (set_flagged (negb (flagged sq)))
  else Returns g.

(** [Game.coords_around]: the generator's items, in the order it yields
    them.  [xdiff == ydiff == 0] is Python's chained comparison. *)
Definition coords_around (g : Game) (c : coord) : list coord :=
  let '(centerx, centery) := c in
  flat_map (fun xdiff =>
    flat_map (fun ydiff =>
      if (xdiff =? ydiff) && (ydiff =? 0) then []
      else
        let x := centerx + xdiff in
        let y := centery + ydiff in
        if in_range x (width g) && in_range y (height g)
        then [(x, y)] else [])
      [-1; 0; 1])
    [-1; 0; 1].

(** [Game.mines_around], on the items of [coords_around]. *)
Fixpoint mines_among (g : Game) (l : list coord) : result (list coord) :=
  match l with
  | [] => Ok []
  | minecoords :: l' =>
      sq ← getitem g minecoords;
      rest ← mines_among g l';
      Ok (if mine sq then minecoords :: rest else rest)
  end.

Definition mines_around (g : Game) (c : coord) : result (list coord) :=
  mines_among g (coords_around g c).

(** [Game.number_of_mines_around]: [result += 1] once per yielded item. *)
Definition number_of_mines_around (g : Game) (c : coord) : result Z :=
  ms ← mines_around g c;
  Ok (fold_left (fun result _ => result + 1) ms 0).

(** [Game.auto_open], with the recursive call to [open] abstracted. *)
Definition auto_open_with (open_rec : Game -> coord -> outcome)
    (g : Game) (c : coord) : outcome :=
  for_each
    (fun g coords =>
       sq ← getitem g coords at g;
       if negb (opened sq) then open_rec g coords else Returns g)
    g (coords_around g c).

(** [Game.open].  [fuel] is the number of nested [open] frames that are
    still allowed. *)
Fixpoint open (fuel : nat) (g : Game) (c : coord) : outcome :=
  match fuel with
  | O => Raises RecursionError g
  | S fuel' =>
      sq ← getitem g c at g;
      g1 ⇐ (if negb (flagged sq) then setattr g c (set_opened true)
            else Returns g);
      n ← number_of_mines_around g1 c at g1;
      if n =? 0 then auto_open_with (open fuel') g1 c else Returns g1
  end.

(** [Game.auto_open]. *)
Definition auto_open (fuel : nat) (g : Game) (c : coord) : outcome :=
  auto_open_with (open fuel) g c.

(** [Game.explosion_coords], scanning the given keys. *)
Fixpoint explosion_among (g : Game) (l : list coord) : result (option coord) :=
  match l with
  | [] => Ok None
  | coords :: l' =>
      sq ← getitem g coords;
      if mine sq && opened sq then Ok (Some coords)
      else explosion_among g l'
  end.

Definition explosion_coords (g : Game) : result (option coord) :=
  explosion_among g (all_coords g).

(** [Game.exploded]. *)
Definition exploded (g : Game) : result bool :=
  r ← explosion_coords g;
  Ok (match r with Some _ => true | None => false end).

(** The loop of [Game.win]: [Ok false] is the early [return False],
    [Ok true] is falling out of the loop. *)
Fixpoint win_scan (g : Game) (l : list coord) : result bool :=
  match l with
  | [] => Ok true
  | coords :: l' =>
      sq ← getitem g coords;
      if negb (mine sq || opened sq) then Ok false else win_scan g l'
  end.

(** [Game.win]. *)
Definition win (g : Game) : result bool :=
  every ← win_scan g (all_coords g);
  if (every : bool) then (e ← exploded g; Ok (negb e)) else Ok false.

(** [Game.over]: [or] evaluates [win] only when [exploded] is false. *)
Definition over (g : Game) : result bool :=
  e ← exploded g;
  if (e : bool) then Ok true else win g.

(** ** Construction *)

(** [random.sample(population, k)] of Python's standard library: [k] items
    from distinct positions of [population], [ValueError] unless
    [0 <= k <= len(population)].  The generator is the stream [rnd]: the
    [i]-th draw [randbelow(m)] is [rnd i mod m].  Each draw takes the item at
    the drawn position of the pool of unselected items and moves the pool's
    last item into the vacancy. *)
Fixpoint sample_pool (rnd : nat -> nat) (i : nat) (pool : list coord)
    (k : nat) : list coord :=
  match k with
  | O => []
  | S k' =>
      let j := (rnd i `mod` length pool)%nat in
      match pool !! j, pool !! (length pool - 1)%nat with
      | Some x, Some z =>
          x :: sample_pool rnd (S i) (removelast (<[j := z]> pool)) k'
      | _, _ => []
      end
  end.

Definition sample (rnd : nat -> nat) (population : list coord) (k : Z)
  : result (list coord) :=
  if (0 <=? k) && (k <=? Z.of_nat (length population))
  then Ok (sample_pool rnd 0 population (Z.to_nat k))
  else Raise ValueError.

(** [[(x, y) for x in range(width) for y in range(height)]]. *)
Definition grid_coords (width height : Z) : list coord :=
  flat_map (fun x => map (fun y => (x, y)) (range height)) (range width).

(** [Game.__init__].  An exception leaves no object behind. *)
Definition Game_init (rnd : nat -> nat) (width height mines : Z)
  : result Game :=
  let all_coords := grid_coords width height in
  mine_coords ← sample rnd all_coords mines;
  let self :=
    mkGame width height mines
           (map (fun coords => (coords, Square_init)) all_coords) in
  match for_each (fun g coords => setattr g coords (set_mine true))
                 self mine_coords with
  | Returns g => Ok g
  | Raises e _ => Raise e
  end.

(** ** Specification vocabulary *)

(** The square at [c], when [c] is a key of the dict. *)
Definition cell (g : Game) (c : coord) : option Square :=
  dict_get (_squares g) c.

(** [c] lies in [[0,width) x [0,height)]. *)
Definition in_grid (g : Game) (c : coord) : bool :=
  in_range (fst c) (width g) && in_range (snd c) (height g).

(** The dict has one entry per grid position, as [__init__] builds it. *)
Definition well_formed (g : Game) : Prop :=
  all_coords g = grid_coords (width g) (height g).

Definition is_mine (g : Game) (c : coord) : bool :=
  match cell g c with
  | Some sq => mine sq
  | None => false
  end.

(** The coordinates whose square has [mine] set. *)
Definition mined_coords (g : Game) : list coord :=
  List.filter (is_mine g) (all_coords g).

(** No square is flagged and opened at once. *)
Definition flag_excludes_open (g : Game) : Prop :=
  forall c sq, cell g c = Some sq -> ~ (flagged sq = true /\ opened sq = true).

(** The states a game passes through: a fresh game, then any calls of
    [open] and [toggle_flag], whether they return or raise. *)
Inductive reachable : Game -> Prop :=
  | reachable_init rnd w h m g :
      Game_init rnd w h m = Ok g -> reachable g
  | reachable_open fuel g c :
      reachable g -> reachable (state_of (open fuel g c))
  | reachable_toggle_flag g c :
      reachable g -> reachable (state_of (toggle_flag g c)).

(** [n] calls of [toggle_flag] on [c] in a row. *)
Fixpoint toggle_flag_times (n : nat) (g : Game) (c : coord) : outcome :=
  match n with
  | O => Returns g
  | S n' => g' ⇐ toggle_flag g c; toggle_flag_times n' g' c
  end.

(** The square at [c] is an opened mine. *)
Definition mine_and_opened (g : Game) (c : coord) : bool :=
  match cell g c with
  | Some sq => mine sq && opened sq
  | None => false
  end.

(** The square at [c] is a mine or opened. *)
Definition mine_or_opened (g : Game) (c : coord) : bool :=
  match cell g c with
  | Some sq => mine sq || opened sq
  | None => false
  end.

(** [opening direct g g']: [g'] has the dimensions, keys, mines and flags of
    [g]; opened squares stay opened; a square opened on the way was not
    flagged, and is not a mine unless its coordinate satisfies [direct]. *)
Definition opening (direct : coord -> Prop) (g g' : Game) : Prop :=
  width g' = width g /\ height g' = height g /\ mines g' = mines g
  /\ all_coords g' = all_coords g
  /\ forall c sq, cell g c = Some sq ->
       exists sq', cell g' c = Some sq'
         /\ mine sq' = mine sq /\ flagged sq' = flagged sq
         /\ (opened sq = true -> opened sq' = true)
         /\ (opened sq = false -> opened sq' = true ->
             flagged sq = false /\ (direct c \/ mine sq = false)).

(** A game as [__init__] leaves it, with the sampled mine coordinates. *)
Definition fresh (w h m : Z) (mine_coords : list coord) (g : Game) : Prop :=
  width g = w /\ height g = h /\ mines g = m
  /\ all_coords g = grid_coords w h
  /\ Z.of_nat (length mine_coords) = m
  /\ NoDup mine_coords
  /\ (forall c, c ∈ mine_coords -> c ∈ grid_coords w h)
  /\ forall c, c ∈ grid_coords w h ->
       cell g c = Some (mkSquare false (bool_decide (c ∈ mine_coords)) false).

(** The square at [c] is not opened. *)
Definition is_closed (g : Game) (c : coord) : bool :=
  match cell g c with
  | Some sq => negb (opened sq)
  | None => false
  end.

(** The number of closed squares. *)
Definition closed_count (g : Game) : nat :=
  length (List.filter (is_closed g) (all_coords g)).

(** The number of closed squares other than the one at [c]. *)
Definition closed_elsewhere (g : Game) (c : coord) : nat :=
  length (List.filter (fun c' => is_closed g c' && negb (coord_eqb c' c))
                      (all_coords g)).

(** No square is flagged. *)
Definition unflagged (g : Game) : Prop :=
  forall c sq, cell g c = Some sq -> flagged sq = false.

(** The square at [c] is opened. *)
Definition is_opened (g : Game) (c : coord) : bool :=
  match cell g c with
  | Some sq => opened sq
  | None => false
  end.

(** None of the squares that [coords_around] yields for [c] is a mine. *)
Definition no_mine_around (g : Game) (c : coord) : bool :=
  forallb (fun c' => negb (is_mine g c')) (coords_around g c).

(** The cascade is complete outside [pending]: an opened square with no
    mine around has all its neighbours opened. *)
Definition settled_but (pending : coord -> Prop) (g : Game) : Prop :=
  forall c, is_opened g c = true -> no_mine_around g c = true ->
    ~ pending c ->
    forall c', c' ∈ coords_around g c -> is_opened g c' = true.

Definition settled (g : Game) : Prop := settled_but (fun _ => False) g.

(** Two games with the same dimensions, keys and mines. *)
Definition same_layout (g g' : Game) : Prop :=
  width g' = width g /\ height g' = height g /\ mines g' = mines g
  /\ all_coords g' = all_coords g
  /\ forall c, is_mine g' c = is_mine g c.

(** ** The playing area

    The parts of [PlayingArea] that compute with coordinates; the calls
    into Tkinter are left out. *)

(** [PlayingArea.SCALE]. *)
Definition SCALE : Z := 20.

(** The pointer position [event.x], [event.y] of a mouse event. *)
Record Event : Type := mkEvent {
  event_x : Z;
  event_y : Z
}.

(** The dispatch of [inner] in [PlayingArea.__click_handler]: the
    coordinates it passes to [func], or [None] when it returns without
    calling [func] (the game is over, or the pointer is off the grid).
    [//] is floor division. *)
Definition click_target (g : Game) (event : Event) : result (option coord) :=
  is_over ← over g;
  if (is_over : bool) then Ok None
  else
    let x := event_x event / SCALE in
    let y := event_y event / SCALE in
    if in_range x (width g) && in_range y (height g)
    then Ok (Some (x, y))
    else Ok None.

(** The rectangle and its centre that [PlayingArea._draw_square] computes
    for the square at [coords]. *)
Record Box : Type := mkBox {
  box_left : Z;
  box_right : Z;
  box_top : Z;
  box_bottom : Z;
  box_centerx : Z;
  box_centery : Z
}.

Definition square_box (coords : coord) : Box :=
  let '(x, y) := coords in
  let left := x * SCALE in
  let right := x * SCALE + SCALE in
  let top := y * SCALE in
  let bottom := y * SCALE + SCALE in
  let centerx := (left + right) / 2 in
  let centery := (top + bottom) / 2 in
  mkBox left right top bottom centerx centery.

(** The game of [PlayingArea.new_game]: [Game(width=30, height=24,
    mines=99)]. *)
Definition new_game (rnd : nat -> nat) : result Game :=
  Game_init rnd 30 24 99.

(** ** Example games *)

(** A generator whose every draw is [n]. *)
Definition always (n : nat) : nat -> nat := fun _ => n.

(** [Game(1, 2, 0)]: two squares, no mine. *)
Definition two_squares : Game :=
  mkGame 1 2 0 [((0, 0), Square_init); ((0, 1), Square_init)].

(** [Game(1, 3, 1)] with the mine drawn at [(0, 2)]. *)
Definition three_in_a_row : Game :=
  mkGame 1 3 1
    [((0, 0), Square_init); ((0, 1), Square_init);
     ((0, 2), mkSquare false true false)].

(** [Game(3, 3, 1)] with the mine drawn at [(1, 1)]. *)
Definition mine_in_the_middle : Game :=
  mkGame 3 3 1
    [((0, 0), Square_init); ((0, 1), Square_init); ((0, 2), Square_init);
     ((1, 0), Square_init); ((1, 1), mkSquare false true false);
     ((1, 2), Square_init);
     ((2, 0), Square_init); ((2, 1), Square_init); ((2, 2), Square_init)].

(** [two_squares] after [toggle_flag] on both squares. *)
Definition two_flags : Game :=
  mkGame 1 2 0
    [((0, 0), mkSquare false false true); ((0, 1), mkSquare false false true)].

(** [two_squares] after [toggle_flag] on [(0, 0)] alone. *)
Definition one_flag : Game :=
  mkGame 1 2 0 [((0, 0), mkSquare false false true); ((0, 1), Square_init)].

(** * Properties *)

(** ** The dict *)

Lemma coord_eqb_spec (c d : coord) : coord_eqb c d = true <-> c = d.
Proof.
  destruct c as [x y], d as [x' y']; unfold coord_eqb; simpl.
  rewrite andb_true_iff, !Z.eqb_eq. split.
  - intros [-> ->]; reflexivity.
  - intros [= -> ->]; split; reflexivity.
Qed.

Lemma coord_eqb_refl (c : coord) : coord_eqb c c = true.
Proof. apply coord_eqb_spec; reflexivity. Qed.

Lemma coord_eqb_neq (c d : coord) : c <> d -> coord_eqb c d = false.
Proof.
  intros Hne. destruct (coord_eqb c d) eqn:E; [|reflexivity].
  apply coord_eqb_spec in E. contradiction.
Qed.

Lemma dict_get_modify_eq f d c :
  dict_get (dict_modify f d c) c = f <$> dict_get d c.
Proof.
  induction d as [|[k sq] d IH]; simpl; [reflexivity|].
  destruct (coord_eqb k c) eqn:E; simpl; rewrite E; [reflexivity|apply IH].
Qed.

Lemma dict_get_modify_ne f d c c' :
  c <> c' -> dict_get (dict_modify f d c) c' = dict_get d c'.
Proof.
  intros Hne. induction d as [|[k sq] d IH]; simpl; [reflexivity|].
  destruct (coord_eqb k c) eqn:E; simpl.
  - apply coord_eqb_spec in E; subst k.
    rewrite (coord_eqb_neq _ _ Hne). reflexivity.
  - destruct (coord_eqb k c'); [reflexivity|apply IH].
Qed.

Lemma dict_keys_modify f d c : map fst (dict_modify f d c) = map fst d.
Proof.
  induction d as [|[k sq] d IH]; simpl; [reflexivity|].
  destruct (coord_eqb k c); simpl; [reflexivity|rewrite IH; reflexivity].
Qed.

Lemma dict_get_is_key d c sq : dict_get d c = Some sq -> c ∈ map fst d.
Proof.
  induction d as [|[k s] d IH]; simpl; [discriminate|].
  destruct (coord_eqb k c) eqn:E.
  - apply coord_eqb_spec in E; subst k. intros _. left.
  - intros H. right. apply IH, H.
Qed.

Lemma dict_key_get d c : c ∈ map fst d -> exists sq, dict_get d c = Some sq.
Proof.
  induction d as [|[k s] d IH]; simpl.
  - intros H. inversion H.
  - intros H. destruct (coord_eqb k c) eqn:E; [eexists; reflexivity|].
    apply IH. inversion H; subst; [|assumption].
    rewrite coord_eqb_refl in E. discriminate.
Qed.

Lemma dict_modify_fixed f d c :
  (forall sq, dict_get d c = Some sq -> f sq = sq) -> dict_modify f d c = d.
Proof.
  induction d as [|[k s] d IH]; simpl; [reflexivity|].
  destruct (coord_eqb k c) eqn:E; intros H.
  - rewrite (H s eq_refl). reflexivity.
  - rewrite (IH H). reflexivity.
Qed.

Lemma dict_modify_twice f1 f2 d c :
  dict_modify f2 (dict_modify f1 d c) c = dict_modify (fun sq => f2 (f1 sq)) d c.
Proof.
  induction d as [|[k s] d IH]; simpl; [reflexivity|].
  destruct (coord_eqb k c) eqn:E; simpl; rewrite E; [reflexivity|].
  rewrite IH. reflexivity.
Qed.

(** ** Reading squares *)

Lemma getitem_cell g c sq : getitem g c = Ok sq <-> cell g c = Some sq.
Proof.
  unfold getitem, cell. destruct (dict_get (_squares g) c); split; congruence.
Qed.

Lemma getitem_missing g c : getitem g c = Raise KeyError <-> cell g c = None.
Proof.
  unfold getitem, cell. destruct (dict_get (_squares g) c); split; congruence.
Qed.

Lemma getitem_key g c : c ∈ all_coords g -> exists sq, getitem g c = Ok sq.
Proof.
  intros H. apply dict_key_get in H as [sq H]. exists sq.
  apply getitem_cell, H.
Qed.

(** ** The queries [exploded], [win] and [over] *)

Lemma explosion_among_keys g l :
  (forall c, c ∈ l -> c ∈ all_coords g) ->
  exists r, explosion_among g l = Ok r
            /\ (match r with Some _ => true | None => false end)
               = existsb (mine_and_opened g) l.
Proof.
  induction l as [|c l IH]; intros Hkeys; simpl.
  - exists None. split; reflexivity.
  - destruct (getitem_key g c) as [sq Hsq]; [apply Hkeys; left|].
    rewrite Hsq; simpl. unfold mine_and_opened at 1.
    apply getitem_cell in Hsq. rewrite Hsq.
    destruct (mine sq && opened sq); simpl.
    + eexists. split; reflexivity.
    + apply IH. intros c' Hc'. apply Hkeys. right. exact Hc'.
Qed.

Lemma exploded_eq g : exploded g = Ok (existsb (mine_and_opened g) (all_coords g)).
Proof.
  unfold exploded, explosion_coords.
  destruct (explosion_among_keys g (all_coords g)) as (r & -> & <-); [auto|].
  reflexivity.
Qed.

Lemma win_scan_keys g l :
  (forall c, c ∈ l -> c ∈ all_coords g) ->
  win_scan g l = Ok (forallb (mine_or_opened g) l).
Proof.
  induction l as [|c l IH]; intros Hkeys; simpl; [reflexivity|].
  destruct (getitem_key g c) as [sq Hsq]; [apply Hkeys; left|].
  rewrite Hsq; simpl. unfold mine_or_opened at 1.
  apply getitem_cell in Hsq. rewrite Hsq.
  destruct (mine sq || opened sq); simpl; [|reflexivity].
  apply IH. intros c' Hc'. apply Hkeys. right. exact Hc'.
Qed.

Lemma win_eq g :
  win g = Ok (forallb (mine_or_opened g) (all_coords g)
              && negb (existsb (mine_and_opened g) (all_coords g))).
Proof.
  unfold win. rewrite win_scan_keys by auto. simpl.
  destruct (forallb _ _); simpl; [|reflexivity].
  rewrite exploded_eq. reflexivity.
Qed.

Lemma over_eq g :
  over g = Ok (existsb (mine_and_opened g) (all_coords g)
               || forallb (mine_or_opened g) (all_coords g)).
Proof.
  unfold over. rewrite exploded_eq. simpl.
  destruct (existsb _ _) eqn:E; simpl; [reflexivity|].
  rewrite win_eq, E, andb_true_r. reflexivity.
Qed.

Lemma cell_is_key g c sq : cell g c = Some sq -> c ∈ all_coords g.
Proof. apply dict_get_is_key. Qed.

Lemma exists_mine_and_opened g :
  existsb (mine_and_opened g) (all_coords g) = true <->
  exists c sq, cell g c = Some sq /\ mine sq = true /\ opened sq = true.
Proof.
  rewrite existsb_exists. split.
  - intros (c & _ & H). unfold mine_and_opened in H.
    destruct (cell g c) as [sq|] eqn:E; [|discriminate].
    apply andb_true_iff in H. exists c, sq. tauto.
  - intros (c & sq & Hc & Hm & Ho). exists c. split.
    + apply list_elem_of_In. eapply cell_is_key, Hc.
    + unfold mine_and_opened. rewrite Hc, Hm, Ho. reflexivity.
Qed.

Lemma forall_mine_or_opened g :
  forallb (mine_or_opened g) (all_coords g) = true <->
  forall c sq, cell g c = Some sq -> mine sq = true \/ opened sq = true.
Proof.
  rewrite forallb_forall. split.
  - intros H c sq Hc. specialize (H c).
    unfold mine_or_opened in H. rewrite Hc in H.
    apply orb_true_iff, H, list_elem_of_In. eapply cell_is_key, Hc.
  - intros H c Hin. apply list_elem_of_In, dict_key_get in Hin as [sq Hsq].
    unfold mine_or_opened, cell. rewrite Hsq.
    apply orb_true_iff. eapply H. exact Hsq.
Qed.

Lemma exploded_true_iff g :
  exploded g = Ok true <->
  exists c sq, cell g c = Some sq /\ mine sq = true /\ opened sq = true.
Proof.
  rewrite exploded_eq, <- exists_mine_and_opened.
  split; [intros [= ->]; reflexivity|intros ->; reflexivity].
Qed.

Lemma exploded_false_iff g :
  exploded g = Ok false <->
  forall c sq, cell g c = Some sq -> mine sq = true -> opened sq = false.
Proof.
  rewrite exploded_eq. split.
  - intros [= E] c sq Hc Hm. destruct (opened sq) eqn:Ho; [|reflexivity].
    assert (existsb (mine_and_opened g) (all_coords g) = true) as E'
      by (apply exists_mine_and_opened; eauto).
    congruence.
  - intros H. f_equal. apply not_true_is_false. intros E.
    apply exists_mine_and_opened in E as (c & sq & Hc & Hm & Ho).
    rewrite (H c sq Hc Hm) in Ho. discriminate.
Qed.

Lemma win_true_iff g :
  win g = Ok true <->
  (forall c sq, cell g c = Some sq -> mine sq = true \/ opened sq = true)
  /\ exploded g = Ok false.
Proof.
  rewrite win_eq, exploded_eq, <- forall_mine_or_opened. split.
  - intros [= E]. apply andb_true_iff in E as [E1 E2].
    split; [exact E1|]. apply negb_true_iff in E2. rewrite E2. reflexivity.
  - intros [-> [= ->]]. reflexivity.
Qed.

(** ** Counting the mines around a coordinate *)

Lemma count_loop (A : Type) (ms : list A) (start : Z) :
  fold_left (fun result _ => result + 1) ms start = start + Z.of_nat (length ms).
Proof.
  revert start. induction ms as [|m ms IH]; intros start; simpl fold_left.
  - simpl. lia.
  - rewrite IH. simpl length. lia.
Qed.

Lemma is_mine_cell g c sq : cell g c = Some sq -> is_mine g c = mine sq.
Proof. intros H. unfold is_mine. rewrite H. reflexivity. Qed.

Lemma mines_among_ok g l ms :
  mines_among g l = Ok ms ->
  ms = List.filter (is_mine g) l /\ forall c, c ∈ l -> c ∈ all_coords g.
Proof.
  revert ms. induction l as [|c l IH]; intros ms; simpl.
  - intros [= <-]. split; [reflexivity|]. intros c H. inversion H.
  - destruct (getitem g c) as [sq|e] eqn:Hsq; simpl; [|discriminate].
    destruct (mines_among g l) as [rest|e] eqn:Hrest; simpl; [|discriminate].
    intros [= <-]. destruct (IH rest eq_refl) as [-> Hkeys].
    apply getitem_cell in Hsq. split.
    + simpl. rewrite (is_mine_cell _ _ _ Hsq). reflexivity.
    + intros c' Hc'. inversion Hc'; subst; [|auto].
      eapply cell_is_key, Hsq.
Qed.

Lemma mines_among_keys g l :
  (forall c, c ∈ l -> c ∈ all_coords g) ->
  mines_among g l = Ok (List.filter (is_mine g) l).
Proof.
  induction l as [|c l IH]; intros Hkeys; simpl; [reflexivity|].
  destruct (getitem_key g c) as [sq Hsq]; [apply Hkeys; left|].
  rewrite Hsq; simpl. rewrite IH by (intros; apply Hkeys; right; assumption).
  simpl. apply getitem_cell in Hsq. rewrite (is_mine_cell _ _ _ Hsq).
  reflexivity.
Qed.

Lemma number_of_mines_around_ok g c n :
  number_of_mines_around g c = Ok n ->
  n = Z.of_nat (length (List.filter (is_mine g) (coords_around g c)))
  /\ forall c', c' ∈ coords_around g c -> c' ∈ all_coords g.
Proof.
  unfold number_of_mines_around, mines_around.
  destruct (mines_among g (coords_around g c)) as [ms|e] eqn:E; simpl;
    [|discriminate].
  intros [= <-]. apply mines_among_ok in E as [-> Hkeys].
  split; [apply count_loop|exact Hkeys].
Qed.

Lemma no_mines_around g c :
  number_of_mines_around g c = Ok 0 ->
  forall c', c' ∈ coords_around g c ->
    exists sq, cell g c' = Some sq /\ mine sq = false.
Proof.
  intros H c' Hc'. apply number_of_mines_around_ok in H as [Hn Hkeys].
  destruct (dict_key_get _ _ (Hkeys c' Hc')) as [sq Hsq].
  exists sq. split; [exact Hsq|].
  destruct (mine sq) eqn:Hm; [|reflexivity].
  assert (c' ∈ List.filter (is_mine g) (coords_around g c)) as Hin.
  { apply list_elem_of_In, filter_In. split; [apply list_elem_of_In, Hc'|].
    rewrite (is_mine_cell _ _ _ Hsq). exact Hm. }
  destruct (List.filter (is_mine g) (coords_around g c)); [inversion Hin|].
  simpl in Hn. lia.
Qed.

(** ** [toggle_flag] *)

Lemma setattr_cell g c f sq :
  cell g c = Some sq ->
  setattr g c f = Returns (with_squares g (dict_modify f (_squares g) c)).
Proof.
  intros H. apply getitem_cell in H. unfold setattr. rewrite H. reflexivity.
Qed.

Lemma toggle_flag_missing g c :
  cell g c = None -> toggle_flag g c = Raises KeyError g.
Proof.
  intros H. apply getitem_missing in H. unfold toggle_flag. rewrite H.
  reflexivity.
Qed.

Lemma toggle_flag_opened g c sq :
  cell g c = Some sq -> opened sq = true -> toggle_flag g c = Returns g.
Proof.
  intros H Ho. apply getitem_cell in H. unfold toggle_flag.
  rewrite H; simpl. rewrite Ho. reflexivity.
Qed.

Lemma toggle_flag_closed g c sq :
  cell g c = Some sq -> opened sq = false ->
  toggle_flag g c =
  Returns (with_squares g
             (dict_modify (set_flagged (negb (flagged sq))) (_squares g) c)).
Proof.
  intros H Ho. unfold toggle_flag.
  rewrite (proj2 (getitem_cell g c sq) H); simpl. rewrite Ho; simpl.
  eapply setattr_cell, H.
Qed.

(** ** What [open] may change *)

Lemma opening_refl direct g : opening direct g g.
Proof.
  unfold opening. split_and!; try reflexivity. intros c sq H. exists sq.
  split_and!; try done. congruence.
Qed.

Lemma opening_trans direct g1 g2 g3 :
  opening direct g1 g2 -> opening direct g2 g3 -> opening direct g1 g3.
Proof.
  intros (Hw & Hh & Hm & Hk & H12) (Hw' & Hh' & Hm' & Hk' & H23).
  unfold opening. split_and!; try congruence. intros c sq H.
  destruct (H12 c sq H) as (sq2 & H2 & Hmine & Hflag & Hkeep & Hnew).
  destruct (H23 c sq2 H2) as (sq3 & H3 & Hmine' & Hflag' & Hkeep' & Hnew').
  exists sq3. split_and!; try congruence; try tauto.
  intros Hc Ho. destruct (opened sq2) eqn:E; [tauto|].
  destruct (Hnew' eq_refl Ho) as [Hf [Hd|Hn]].
  - split; [congruence|left; exact Hd].
  - split; [congruence|right; congruence].
Qed.

Lemma opening_weaken (direct direct' : coord -> Prop) g g' :
  (forall c sq, cell g c = Some sq -> direct c -> direct' c \/ mine sq = false) ->
  opening direct g g' -> opening direct' g g'.
Proof.
  intros Hsub (Hw & Hh & Hm & Hk & H). unfold opening.
  split_and!; try assumption. intros c sq Hc.
  destruct (H c sq Hc) as (sq' & H' & Hmine & Hflag & Hkeep & Hnew).
  exists sq'. split_and!; try assumption.
  intros Ho Ho'. destruct (Hnew Ho Ho') as [Hf [Hd|Hn]]; [|tauto].
  split; [exact Hf|]. eapply Hsub; eassumption.
Qed.

Lemma opening_set_opened g c sq :
  cell g c = Some sq -> flagged sq = false ->
  opening (eq c) g
    (with_squares g (dict_modify (set_opened true) (_squares g) c)).
Proof.
  intros Hc Hf. unfold opening. split_and!; try reflexivity.
  - unfold all_coords; simpl. apply dict_keys_modify.
  - intros c' sq' Hc'. unfold cell; simpl.
    destruct (decide (c = c')) as [<-|Hne].
    + rewrite dict_get_modify_eq. unfold cell in Hc, Hc'. rewrite Hc'.
      simpl. eexists. split; [reflexivity|]. simpl.
      split_and!; try reflexivity. intros _ _.
      split; [congruence|left; reflexivity].
    + rewrite dict_get_modify_ne by assumption. exists sq'.
      split_and!; try done. congruence.
Qed.

Section AutoOpen.
Variable open_rec : Game -> coord -> outcome.
Hypothesis open_rec_opening :
  forall g c, opening (eq c) g (state_of (open_rec g c)).

Lemma auto_open_loop_opening l : forall g,
  (forall c, c ∈ l -> exists sq, cell g c = Some sq /\ mine sq = false) ->
  opening (fun _ => False) g
    (state_of
       (for_each
          (fun g coords =>
             sq ← getitem g coords at g;
             if negb (opened sq) then open_rec g coords else Returns g)
          g l)).
Proof.
  induction l as [|c l IH]; intros g Hsafe; simpl.
  - apply opening_refl.
  - destruct (Hsafe c) as (sq & Hsq & Hmine); [left|].
    rewrite (proj2 (getitem_cell g c sq) Hsq); simpl.
    assert (exists o,
      (if negb (opened sq) then open_rec g c else Returns g) = o
      /\ opening (fun _ => False) g (state_of o)) as (o & -> & Ho).
    { eexists. split; [reflexivity|]. destruct (negb (opened sq)).
      - eapply opening_weaken; [|apply open_rec_opening].
        intros c' sq' Hc' <-. right. congruence.
      - apply opening_refl. }
    destruct o as [g'|e g']; simpl in *; [|exact Ho].
    eapply opening_trans; [exact Ho|]. apply IH.
    intros c' Hc'. destruct (Hsafe c') as (sq' & Hsq' & Hmine'); [right; exact Hc'|].
    destruct Ho as (_ & _ & _ & _ & Ho).
    destruct (Ho c' sq' Hsq') as (sq'' & Hsq'' & Hm'' & _).
    exists sq''. split; [exact Hsq''|congruence].
Qed.

Lemma auto_open_with_opening g c :
  number_of_mines_around g c = Ok 0 ->
  opening (fun _ => False) g (state_of (auto_open_with open_rec g c)).
Proof.
  intros Hzero. apply auto_open_loop_opening, no_mines_around, Hzero.
Qed.
End AutoOpen.

Lemma open_opening fuel : forall g c,
  opening (eq c) g (state_of (open fuel g c)).
Proof.
  induction fuel as [|fuel IH]; intros g c; simpl.
  - apply opening_refl.
  - destruct (getitem g c) as [sq|e] eqn:Hsq; simpl; [|apply opening_refl].
    apply getitem_cell in Hsq.
    assert (exists g1,
      (if negb (flagged sq) then setattr g c (set_opened true) else Returns g)
      = Returns g1 /\ opening (eq c) g g1) as (g1 & -> & H1).
    { destruct (flagged sq) eqn:Hf; simpl.
      - exists g. split; [reflexivity|apply opening_refl].
      - erewrite setattr_cell by eassumption. eexists. split; [reflexivity|].
        eapply opening_set_opened; eassumption. }
    simpl. destruct (number_of_mines_around g1 c) as [n|e] eqn:Hn; simpl;
      [|exact H1].
    destruct (n =? 0) eqn:Hz; [|exact H1].
    apply Z.eqb_eq in Hz; subst n.
    eapply opening_trans; [exact H1|].
    eapply opening_weaken; [|apply auto_open_with_opening; [exact IH|exact Hn]].
    intros ? ? _ [].
Qed.

(** ** Sampling without replacement *)

Lemma pool_step (pool : list coord) (j : nat) (x z : coord) :
  pool !! j = Some x -> pool !! (length pool - 1)%nat = Some z ->
  x :: removelast (<[j := z]> pool) ≡ₚ pool.
Proof.
  destruct pool as [|a pool'] using rev_ind; [discriminate|]. clear IHpool'.
  rename pool' into pre.
  intros Hx Hz. rewrite length_app in Hz. simpl in Hz.
  replace (length pre + 1 - 1)%nat with (length pre) in Hz by lia.
  rewrite list_lookup_middle in Hz by reflexivity. injection Hz as ->.
  destruct (decide (j = length pre)) as [->|Hj].
  - rewrite list_lookup_middle in Hx by reflexivity. injection Hx as ->.
    rewrite list_insert_id by (apply list_lookup_middle; reflexivity).
    rewrite removelast_last. apply Permutation_cons_append.
  - assert (j < length pre)%nat as Hlt.
    { apply lookup_lt_Some in Hx. rewrite length_app in Hx. simpl in Hx. lia. }
    rewrite lookup_app_l in Hx by exact Hlt.
    rewrite insert_app_l by exact Hlt. rewrite removelast_last.
    rewrite insert_take_drop by exact Hlt.
    rewrite <- (take_drop_middle pre j x Hx) at 3.
    rewrite <- !Permutation_middle, app_nil_r. apply perm_swap.
Qed.

Lemma sample_pool_spec k : forall rnd i (pool : list coord),
  (k <= length pool)%nat ->
  length (sample_pool rnd i pool k) = k
  /\ exists rest, sample_pool rnd i pool k ++ rest ≡ₚ pool.
Proof.
  induction k as [|k IH]; intros rnd i pool Hk; simpl.
  - split; [reflexivity|]. exists pool. reflexivity.
  - assert (rnd i `mod` length pool < length pool)%nat as Hj
      by (apply Nat.mod_upper_bound; lia).
    destruct (lookup_lt_is_Some_2 pool _ Hj) as [x Hx].
    destruct (lookup_lt_is_Some_2 pool (length pool - 1)) as [z Hz]; [lia|].
    rewrite Hx, Hz. pose proof (pool_step pool _ x z Hx Hz) as Hperm.
    set (pool' := removelast _) in *.
    destruct (IH rnd (S i) pool') as [Hlen [rest Hrest]].
    { apply Permutation_length in Hperm. simpl in Hperm. lia. }
    split; [simpl; rewrite Hlen; reflexivity|].
    exists rest. simpl. rewrite Hrest. exact Hperm.
Qed.

Lemma sample_ok rnd (population : list coord) k :
  0 <= k <= Z.of_nat (length population) ->
  exists l, sample rnd population k = Ok l
    /\ Z.of_nat (length l) = k
    /\ (NoDup population -> NoDup l)
    /\ (forall c, c ∈ l -> c ∈ population).
Proof.
  intros Hk. unfold sample.
  replace ((0 <=? k) && (k <=? Z.of_nat (length population))) with true
    by (symmetry; apply andb_true_iff; split; apply Z.leb_le; lia).
  eexists. split; [reflexivity|].
  destruct (sample_pool_spec (Z.to_nat k) rnd 0%nat population)
    as [Hlen [rest Hperm]]; [lia|].
  split_and!.
  - rewrite Hlen. lia.
  - intros Hnd. rewrite <- Hperm in Hnd. apply NoDup_app in Hnd. tauto.
  - intros c Hc. rewrite <- Hperm. apply elem_of_app. left. exact Hc.
Qed.

Lemma sample_fails rnd (population : list coord) k :
  ~ 0 <= k <= Z.of_nat (length population) ->
  sample rnd population k = Raise ValueError.
Proof.
  intros Hk. unfold sample.
  destruct ((0 <=? k) && (k <=? Z.of_nat (length population))) eqn:E;
    [|reflexivity].
  apply andb_true_iff in E as [E1 E2]. apply Z.leb_le in E1, E2. lia.
Qed.

(** Every selection of distinct items of the pool is the outcome of
    [sample_pool] for some draws: the model leaves no outcome of
    [random.sample] out. *)
Lemma sample_pool_complete (l : list coord) : forall pool,
  NoDup l -> (forall c, c ∈ l -> c ∈ pool) ->
  exists js : list nat,
    forall rnd i,
      (forall n, (n < length l)%nat -> rnd (i + n)%nat = nth n js 0%nat) ->
      sample_pool rnd i pool (length l) = l.
Proof.
  induction l as [|x l IH]; intros pool Hnd Hsub.
  - exists []. reflexivity.
  - apply NoDup_cons in Hnd as [Hx Hnd].
    destruct (list_elem_of_lookup_1 pool x (Hsub x ltac:(left))) as [j Hj].
    pose proof (lookup_lt_Some _ _ _ Hj) as Hlt.
    destruct (lookup_lt_is_Some_2 pool (length pool - 1)) as [z Hz]; [lia|].
    pose proof (pool_step pool j x z Hj Hz) as Hperm.
    destruct (IH (removelast (<[j := z]> pool)) Hnd) as [js Hjs].
    { intros c Hc. assert (c ∈ x :: removelast (<[j := z]> pool)) as Hin
        by (rewrite Hperm; apply Hsub; right; exact Hc).
      apply elem_of_cons in Hin as [->|Hin]; [contradiction|exact Hin]. }
    exists (j :: js). intros rnd i Hrnd. simpl.
    pose proof (Hrnd 0%nat ltac:(simpl; lia)) as H0. simpl in H0.
    rewrite Nat.add_0_r in H0. rewrite H0, Nat.mod_small by exact Hlt.
    rewrite Hj, Hz. f_equal. apply Hjs. intros n Hn.
    specialize (Hrnd (S n) ltac:(simpl; lia)). simpl in Hrnd.
    rewrite <- Hrnd. f_equal. lia.
Qed.

Lemma sample_complete (population l : list coord) :
  NoDup l -> (forall c, c ∈ l -> c ∈ population) ->
  exists rnd, sample rnd population (Z.of_nat (length l)) = Ok l.
Proof.
  intros Hnd Hsub.
  destruct (sample_pool_complete l population Hnd Hsub) as [js Hjs].
  exists (fun n => nth n js 0%nat). unfold sample.
  assert (length l <= length population)%nat as Hle.
  { apply NoDup_ListNoDup in Hnd. apply (NoDup_incl_length Hnd).
    intros c Hc. apply list_elem_of_In, Hsub, list_elem_of_In, Hc. }
  replace ((0 <=? Z.of_nat (length l))
           && (Z.of_nat (length l) <=? Z.of_nat (length population)))
    with true by (symmetry; apply andb_true_iff; split; apply Z.leb_le; lia).
  rewrite Nat2Z.id. f_equal. apply Hjs. intros n _. reflexivity.
Qed.

(** ** The grid *)

Lemma elem_of_range x n : x ∈ range n <-> 0 <= x < n.
Proof. unfold range. rewrite elem_of_seqZ. lia. Qed.

Lemma in_range_spec x n : in_range x n = true <-> 0 <= x < n.
Proof. unfold in_range. rewrite andb_true_iff, Z.leb_le, Z.ltb_lt. tauto. Qed.

Lemma elem_of_pairs (xs ys : list Z) (x y : Z) :
  (x, y) ∈ flat_map (fun x => map (fun y => (x, y)) ys) xs <-> x ∈ xs /\ y ∈ ys.
Proof.
  rewrite list_elem_of_In, in_flat_map. split.
  - intros (x' & Hx' & Hin). apply in_map_iff in Hin as (y' & [= -> ->] & Hy').
    split; apply list_elem_of_In; assumption.
  - intros [Hx Hy]. exists x. split; [apply list_elem_of_In, Hx|].
    apply in_map_iff. exists y. split; [reflexivity|apply list_elem_of_In, Hy].
Qed.

Lemma NoDup_pairs (xs ys : list Z) :
  NoDup xs -> NoDup ys ->
  NoDup (flat_map (fun x => map (fun y => (x, y)) ys) xs).
Proof.
  intros Hxs Hys. induction Hxs as [|x xs Hx Hxs IH]; simpl; [constructor|].
  apply NoDup_app. split_and!.
  - apply NoDup_fmap_2; [|exact Hys]. intros y y' [= ->]. reflexivity.
  - intros [x' y'] Hin Hin'. apply elem_of_pairs in Hin' as [Hx' _].
    apply list_elem_of_fmap in Hin as (y & [= -> ->] & _). contradiction.
  - exact IH.
Qed.

Lemma length_pairs (xs ys : list Z) :
  length (flat_map (fun x => map (fun y => (x, y)) ys) xs)
  = (length xs * length ys)%nat.
Proof.
  induction xs as [|x xs IH]; simpl; [reflexivity|].
  rewrite length_app, length_map, IH. reflexivity.
Qed.

Lemma elem_of_grid_coords w h x y :
  (x, y) ∈ grid_coords w h <-> 0 <= x < w /\ 0 <= y < h.
Proof.
  unfold grid_coords. rewrite elem_of_pairs, !elem_of_range. reflexivity.
Qed.

Lemma NoDup_grid_coords w h : NoDup (grid_coords w h).
Proof. apply NoDup_pairs; apply NoDup_seqZ. Qed.

Lemma length_grid_coords w h :
  Z.of_nat (length (grid_coords w h)) = Z.max 0 w * Z.max 0 h.
Proof.
  unfold grid_coords, range. rewrite length_pairs, !length_seqZ. lia.
Qed.

Lemma in_grid_elem_of g c :
  in_grid g c = true <-> c ∈ grid_coords (width g) (height g).
Proof.
  destruct c as [x y]. unfold in_grid; simpl.
  rewrite elem_of_grid_coords, andb_true_iff, !in_range_spec. reflexivity.
Qed.

Lemma coords_around_in_grid g c c' :
  c' ∈ coords_around g c -> in_grid g c' = true.
Proof.
  destruct c as [cx cy]. unfold coords_around.
  rewrite list_elem_of_In, in_flat_map. intros (dx & _ & Hin).
  apply in_flat_map in Hin as (dy & _ & Hin).
  destruct ((dx =? dy) && (dy =? 0)); [destruct Hin|].
  destruct (in_range (cx + dx) (width g) && in_range (cy + dy) (height g))
    eqn:E; [|destruct Hin].
  destruct Hin as [<-|[]]. exact E.
Qed.

Lemma coords_around_keys g c c' :
  well_formed g -> c' ∈ coords_around g c -> c' ∈ all_coords g.
Proof.
  intros Hwf Hin. rewrite Hwf. apply in_grid_elem_of.
  eapply coords_around_in_grid, Hin.
Qed.

(** ** Construction *)

Lemma fresh_dict_keys (l : list coord) :
  map fst (map (fun coords => (coords, Square_init)) l) = l.
Proof. induction l as [|c l IH]; simpl; [|rewrite IH]; reflexivity. Qed.

Lemma fresh_dict_get (l : list coord) c sq :
  dict_get (map (fun coords => (coords, Square_init)) l) c = Some sq ->
  sq = Square_init.
Proof.
  induction l as [|k l IH]; simpl; [discriminate|].
  destruct (coord_eqb k c); [congruence|exact IH].
Qed.

Lemma mark_mines_spec l : forall g,
  (forall c, c ∈ l -> c ∈ all_coords g) ->
  exists g',
    for_each (fun g coords => setattr g coords (set_mine true)) g l = Returns g'
    /\ width g' = width g /\ height g' = height g /\ mines g' = mines g
    /\ all_coords g' = all_coords g
    /\ forall c sq, cell g c = Some sq ->
         cell g' c = Some (if bool_decide (c ∈ l) then set_mine true sq else sq).
Proof.
  induction l as [|k l IH]; intros g Hkeys; simpl.
  - exists g. split_and!; try reflexivity. intros c sq ->. reflexivity.
  - destruct (dict_key_get _ k (Hkeys k ltac:(left))) as [ksq Hk].
    erewrite setattr_cell by exact Hk. simpl.
    set (g1 := with_squares g _).
    destruct (IH g1) as (g' & -> & Hw & Hh & Hm & Hkeys' & Hcells).
    { intros c Hc. unfold g1, all_coords; simpl. rewrite dict_keys_modify.
      apply Hkeys. right. exact Hc. }
    exists g'. split_and!; try assumption; try reflexivity.
    { rewrite Hkeys'. unfold g1, all_coords; simpl. apply dict_keys_modify. }
    intros c sq Hc. destruct (decide (k = c)) as [->|Hne].
    + rewrite (Hcells c (set_mine true sq)).
      * rewrite (bool_decide_eq_true_2 (c ∈ c :: l)) by left.
        destruct (bool_decide (c ∈ l)); reflexivity.
      * unfold g1, cell; simpl. rewrite dict_get_modify_eq.
        unfold cell in Hc. rewrite Hc. reflexivity.
    + rewrite (Hcells c sq).
      * f_equal. rewrite (bool_decide_ext (c ∈ k :: l) (c ∈ l)); [reflexivity|].
        rewrite elem_of_cons. split; [intros [->|H]; [contradiction|exact H]|tauto].
      * unfold g1, cell; simpl. rewrite dict_get_modify_ne by exact Hne.
        exact Hc.
Qed.

Lemma Game_init_sampled rnd w h m l :
  sample rnd (grid_coords w h) m = Ok l ->
  exists g, Game_init rnd w h m = Ok g /\ fresh w h m l g.
Proof.
  intros Hsample. unfold Game_init. rewrite Hsample.
  assert (0 <= m <= Z.of_nat (length (grid_coords w h))) as Hm.
  { destruct (decide (0 <= m <= Z.of_nat (length (grid_coords w h))))
      as [Hm|Hm]; [exact Hm|].
    rewrite sample_fails in Hsample by exact Hm. discriminate. }
  destruct (sample_ok rnd (grid_coords w h) m Hm)
    as (l' & Hl' & Hlen & Hnd & Hsub).
  assert (l' = l) as -> by congruence.
  simpl. set (self := mkGame _ _ _ _).
  assert (all_coords self = grid_coords w h) as Hkeys by apply fresh_dict_keys.
  destruct (mark_mines_spec l self) as (g & -> & Hw & Hh & Hmines & Hk & Hcells).
  { intros c Hc. rewrite Hkeys. apply Hsub, Hc. }
  exists g. split; [reflexivity|]. unfold fresh.
  split_and!; try assumption; try congruence.
  - apply Hnd, NoDup_grid_coords.
  - intros c Hc. rewrite <- Hkeys in Hc. apply dict_key_get in Hc as [sq Hsq].
    rewrite (Hcells c sq Hsq).
    apply fresh_dict_get in Hsq as ->. destruct (bool_decide _); reflexivity.
Qed.

Lemma Game_init_returns rnd w h m :
  0 <= m <= Z.max 0 w * Z.max 0 h ->
  exists g mine_coords, Game_init rnd w h m = Ok g /\ fresh w h m mine_coords g.
Proof.
  intros Hm. destruct (sample_ok rnd (grid_coords w h) m) as (l & Hl & _).
  { rewrite length_grid_coords. exact Hm. }
  destruct (Game_init_sampled rnd w h m l Hl) as (g & Hg & Hfresh).
  exists g, l. split; assumption.
Qed.

(** Every placement of distinct mines on the grid is the outcome of
    [__init__] for some draws. *)
Lemma Game_init_any_placement w h (l : list coord) :
  NoDup l -> (forall c, c ∈ l -> c ∈ grid_coords w h) ->
  exists rnd g,
    Game_init rnd w h (Z.of_nat (length l)) = Ok g
    /\ fresh w h (Z.of_nat (length l)) l g.
Proof.
  intros Hnd Hsub.
  destruct (sample_complete (grid_coords w h) l Hnd Hsub) as [rnd Hrnd].
  exists rnd. apply Game_init_sampled, Hrnd.
Qed.

Lemma Game_init_raises rnd w h m :
  ~ 0 <= m <= Z.max 0 w * Z.max 0 h ->
  Game_init rnd w h m = Raise ValueError.
Proof.
  intros Hm. unfold Game_init. rewrite sample_fails; [reflexivity|].
  rewrite length_grid_coords. exact Hm.
Qed.

Lemma Game_init_fresh rnd w h m g :
  Game_init rnd w h m = Ok g ->
  0 <= m <= Z.max 0 w * Z.max 0 h /\ exists mine_coords, fresh w h m mine_coords g.
Proof.
  intros H. destruct (decide (0 <= m <= Z.max 0 w * Z.max 0 h)) as [Hm|Hm].
  - split; [exact Hm|].
    destruct (Game_init_returns rnd w h m Hm) as (g' & l & Hg' & Hfresh).
    exists l. congruence.
  - rewrite Game_init_raises in H by exact Hm. discriminate.
Qed.

(** ** What [toggle_flag] may change *)

Lemma toggle_flag_frame g c :
  let g' := state_of (toggle_flag g c) in
  width g' = width g /\ height g' = height g /\ mines g' = mines g
  /\ all_coords g' = all_coords g
  /\ forall c' sq, cell g c' = Some sq ->
       exists sq', cell g' c' = Some sq'
         /\ opened sq' = opened sq /\ mine sq' = mine sq
         /\ (flagged sq' = flagged sq \/ opened sq = false).
Proof.
  assert (forall c' sq, cell g c' = Some sq ->
            exists sq', cell g c' = Some sq'
              /\ opened sq' = opened sq /\ mine sq' = mine sq
              /\ (flagged sq' = flagged sq \/ opened sq = false)) as Hsame.
  { intros c' sq H. exists sq. split_and!; try done. left; reflexivity. }
  destruct (cell g c) as [sq|] eqn:Hc.
  - destruct (opened sq) eqn:Ho.
    + rewrite (toggle_flag_opened g c sq Hc Ho). simpl.
      split_and!; try reflexivity. exact Hsame.
    + rewrite (toggle_flag_closed g c sq Hc Ho). simpl.
      split_and!; try reflexivity.
      { unfold all_coords; simpl. apply dict_keys_modify. }
      intros c' sq' Hc'. unfold cell; simpl.
      destruct (decide (c = c')) as [<-|Hne].
      * rewrite dict_get_modify_eq. unfold cell in Hc, Hc'.
        rewrite Hc'. simpl. eexists. split; [reflexivity|]. simpl.
        split_and!; try reflexivity. right. congruence.
      * rewrite dict_get_modify_ne by exact Hne. exists sq'.
        split_and!; try done. left; reflexivity.
  - rewrite (toggle_flag_missing g c Hc). simpl.
    split_and!; try reflexivity. exact Hsame.
Qed.

(** ** The invariants of a reachable game *)

Lemma fresh_flag_excludes_open w h m l g :
  fresh w h m l g -> flag_excludes_open g.
Proof.
  intros (_ & _ & _ & Hkeys & _ & _ & _ & Hcells) c sq Hc [Hf _].
  assert (c ∈ grid_coords w h) as Hin
    by (rewrite <- Hkeys; eapply cell_is_key, Hc).
  rewrite (Hcells c Hin) in Hc. injection Hc as <-. discriminate.
Qed.

Lemma open_flag_excludes_open fuel g c :
  flag_excludes_open g -> flag_excludes_open (state_of (open fuel g c)).
Proof.
  intros Hinv c' sq' Hc' [Hf Ho].
  destruct (open_opening fuel g c) as (_ & _ & _ & Hkeys & Hcells).
  assert (c' ∈ all_coords g) as Hin
    by (rewrite <- Hkeys; eapply cell_is_key, Hc').
  apply dict_key_get in Hin as [sq Hsq].
  destruct (Hcells c' sq Hsq) as (sq'' & Hsq'' & _ & Hflag & Hkeep & Hnew).
  assert (sq'' = sq') as -> by congruence.
  destruct (opened sq) eqn:E.
  - apply (Hinv c' sq Hsq). split; congruence.
  - destruct (Hnew eq_refl Ho) as [Hf' _]. congruence.
Qed.

Lemma toggle_flag_flag_excludes_open g c :
  flag_excludes_open g -> flag_excludes_open (state_of (toggle_flag g c)).
Proof.
  intros Hinv c' sq' Hc' [Hf Ho].
  destruct (toggle_flag_frame g c) as (_ & _ & _ & Hkeys & Hcells).
  assert (c' ∈ all_coords g) as Hin
    by (rewrite <- Hkeys; eapply cell_is_key, Hc').
  apply dict_key_get in Hin as [sq Hsq].
  destruct (Hcells c' sq Hsq) as (sq'' & Hsq'' & Hopen & _ & [Hflag|Hclosed]).
  - assert (sq'' = sq') as -> by congruence.
    apply (Hinv c' sq Hsq). split; congruence.
  - assert (sq'' = sq') as -> by congruence. congruence.
Qed.

Lemma reachable_well_formed g : reachable g -> well_formed g.
Proof.
  induction 1 as [rnd w h m g Hinit|fuel g c _ IH|g c _ IH].
  - apply Game_init_fresh in Hinit as [_ (l & Hw & Hh & _ & Hkeys & _)].
    unfold well_formed. congruence.
  - destruct (open_opening fuel g c) as (Hw & Hh & _ & Hkeys & _).
    unfold well_formed in *. congruence.
  - destruct (toggle_flag_frame g c) as (Hw & Hh & _ & Hkeys & _).
    unfold well_formed in *. congruence.
Qed.

Lemma reachable_flag_excludes_open g : reachable g -> flag_excludes_open g.
Proof.
  induction 1 as [rnd w h m g Hinit|fuel g c _ IH|g c _ IH].
  - apply Game_init_fresh in Hinit as [_ [l Hfresh]].
    eapply fresh_flag_excludes_open, Hfresh.
  - apply open_flag_excludes_open, IH.
  - apply toggle_flag_flag_excludes_open, IH.
Qed.

(** ** Explosions persist *)

Lemma open_keeps_exploded fuel g c :
  exploded g = Ok true -> exploded (state_of (open fuel g c)) = Ok true.
Proof.
  rewrite !exploded_true_iff. intros (c' & sq & Hc' & Hm & Ho).
  destruct (open_opening fuel g c) as (_ & _ & _ & _ & Hcells).
  destruct (Hcells c' sq Hc') as (sq' & Hsq' & Hmine & _ & Hkeep & _).
  exists c', sq'. split_and!; [exact Hsq'|congruence|auto].
Qed.

Lemma toggle_flag_keeps_exploded g c :
  exploded g = Ok true -> exploded (state_of (toggle_flag g c)) = Ok true.
Proof.
  rewrite !exploded_true_iff. intros (c' & sq & Hc' & Hm & Ho).
  destruct (toggle_flag_frame g c) as (_ & _ & _ & _ & Hcells).
  destruct (Hcells c' sq Hc') as (sq' & Hsq' & Hopen & Hmine & _).
  exists c', sq'. split_and!; [exact Hsq'|congruence|congruence].
Qed.

Lemma open_unfold fuel g c :
  open (S fuel) g c =
  (sq ← getitem g c at g;
   g1 ⇐ (if negb (flagged sq) then setattr g c (set_opened true)
         else Returns g);
   n ← number_of_mines_around g1 c at g1;
   if n =? 0 then auto_open fuel g1 c else Returns g1).
Proof. reflexivity. Qed.

Lemma open_opens_unflagged fuel g c sq :
  cell g c = Some sq -> flagged sq = false ->
  exists sq', cell (state_of (open (S fuel) g c)) c = Some sq'
    /\ opened sq' = true /\ mine sq' = mine sq.
Proof.
  intros Hc Hf. rewrite open_unfold.
  rewrite (proj2 (getitem_cell g c sq) Hc); simpl. rewrite Hf; simpl.
  erewrite setattr_cell by exact Hc. simpl.
  set (g1 := with_squares g _).
  assert (cell g1 c = Some (set_opened true sq)) as H1.
  { unfold g1, cell; simpl. rewrite dict_get_modify_eq.
    unfold cell in Hc. rewrite Hc. reflexivity. }
  assert (forall g', opening (fun _ => False) g1 g' ->
            exists sq', cell g' c = Some sq'
              /\ opened sq' = true /\ mine sq' = mine sq) as Hlater.
  { intros g' (_ & _ & _ & _ & Hcells).
    destruct (Hcells c _ H1) as (sq' & Hsq' & Hmine & _ & Hkeep & _).
    exists sq'. split_and!; [exact Hsq'|auto|exact Hmine]. }
  destruct (number_of_mines_around g1 c) as [n|e] eqn:Hn; simpl.
  - destruct (n =? 0) eqn:Hz; simpl.
    + apply Z.eqb_eq in Hz; subst n. apply Hlater.
      apply auto_open_with_opening; [apply open_opening|exact Hn].
    + apply Hlater, opening_refl.
  - apply Hlater, opening_refl.
Qed.

(** * Examples *)

Example two_squares_init rnd : Game_init rnd 1 2 0 = Ok two_squares.
Proof. reflexivity. Qed.

Example three_in_a_row_init : Game_init (always 2) 1 3 1 = Ok three_in_a_row.
Proof. reflexivity. Qed.

Example mine_in_the_middle_init :
  Game_init (always 4) 3 3 1 = Ok mine_in_the_middle.
Proof. reflexivity. Qed.

Example two_flags_reached :
  (g1 ⇐ toggle_flag two_squares (0, 0); toggle_flag g1 (0, 1))
  = Returns two_flags.
Proof. reflexivity. Qed.

(** The scenarios of the specification. *)

Example scenario_two_squares :
  exists g, open 2 two_squares (0, 0) = Returns g
    /\ cell g (0, 1) = Some (mkSquare true false false)
    /\ win g = Ok true.
Proof. eexists. split_and!; reflexivity. Qed.

Example scenario_corner_next_to_mine :
  exists g, open 1 mine_in_the_middle (0, 0) = Returns g
    /\ number_of_mines_around g (0, 0) = Ok 1
    /\ List.filter (fun c => negb (mine_or_opened g c)) (all_coords g)
       = [(0, 1); (0, 2); (1, 0); (1, 2); (2, 0); (2, 1); (2, 2)]
    /\ over g = Ok false.
Proof. eexists. split_and!; reflexivity. Qed.

Example scenario_open_the_mine :
  exists g, open 2 mine_in_the_middle (1, 1) = Returns g
    /\ exploded g = Ok true /\ over g = Ok true /\ win g = Ok false.
Proof. eexists. split_and!; reflexivity. Qed.

(** * Main results *)

(** ** The auto-open cascade, flags and explosions *)

(** C2. Whatever [open(c)] does, a square other than the one at [c] that
    goes from closed to opened during the call is not a mine: the auto-open
    cascade never opens a mine.  The state after the call is the one it
    leaves behind, whether it returns or raises. *)
Theorem cascade_opens_no_mine (fuel : nat) (g : Game) (c c' : coord)
    (sq sq' : Square) :
  cell g c' = Some sq ->
  cell (state_of (open fuel g c)) c' = Some sq' ->
  opened sq = false -> opened sq' = true ->
  c' <> c ->
  mine sq' = false.
Proof.
  intros Hc Hc' Hclosed Hopened Hne.
  destruct (open_opening fuel g c) as (_ & _ & _ & _ & Hcells).
  destruct (Hcells c' sq Hc) as (sq'' & Hsq'' & Hmine & _ & _ & Hnew).
  assert (sq'' = sq') as -> by congruence.
  destruct (Hnew Hclosed Hopened) as [_ [Heq|Hsafe]]; congruence.
Qed.

Lemma cascade_opens_no_mine_witness :
  cell three_in_a_row (0, 1) = Some Square_init
  /\ cell (state_of (open 3 three_in_a_row (0, 0))) (0, 1)
     = Some (mkSquare true false false)
  /\ mine (mkSquare true false false) = false.
Proof.
  split; [reflexivity|]. split; [reflexivity|].
  apply (cascade_opens_no_mine 3 three_in_a_row (0, 0) (0, 1)
           Square_init (mkSquare true false false));
    [reflexivity|reflexivity|reflexivity|reflexivity|discriminate].
Defined.

(** C3. No square is ever flagged and opened at once: this holds of a
    freshly constructed game, [open] and [toggle_flag] preserve it, and so
    it holds in every reachable state. *)
Theorem flagged_never_opened :
  (forall rnd w h m g, Game_init rnd w h m = Ok g -> flag_excludes_open g)
  /\ (forall fuel g c,
        flag_excludes_open g -> flag_excludes_open (state_of (open fuel g c)))
  /\ (forall g c,
        flag_excludes_open g -> flag_excludes_open (state_of (toggle_flag g c)))
  /\ (forall g, reachable g -> flag_excludes_open g).
Proof.
  split_and!.
  - intros rnd w h m g Hinit. apply reachable_flag_excludes_open.
    econstructor. exact Hinit.
  - intros fuel g c. apply open_flag_excludes_open.
  - intros g c. apply toggle_flag_flag_excludes_open.
  - apply reachable_flag_excludes_open.
Qed.

Lemma flagged_never_opened_witness :
  flag_excludes_open
    (state_of (open 3 (state_of (toggle_flag three_in_a_row (0, 1))) (0, 0))).
Proof.
  apply (proj2 (proj2 (proj2 flagged_never_opened))).
  apply reachable_open, reachable_toggle_flag.
  apply (reachable_init (always 2) 1 3 1). reflexivity.
Defined.

(** C4. [win()] always returns, and returns true exactly when every
    square that is not a mine is opened and no mine is opened; equivalently,
    when every square is a mine or opened and the game is not exploded. *)
Theorem win_iff (g : Game) :
  (exists b, win g = Ok b)
  /\ (win g = Ok true <->
      (forall c sq, cell g c = Some sq -> mine sq = false -> opened sq = true)
      /\ (forall c sq, cell g c = Some sq -> mine sq = true -> opened sq = false))
  /\ (win g = Ok true <->
      (forall c sq, cell g c = Some sq -> mine sq = true \/ opened sq = true)
      /\ exploded g = Ok false).
Proof.
  split_and!.
  - rewrite win_eq. eexists. reflexivity.
  - rewrite win_true_iff, exploded_false_iff. split.
    + intros [Hall Hnone]. split; [|exact Hnone].
      intros c sq Hc Hm. destruct (Hall c sq Hc); congruence.
    + intros [Hsafe Hnone]. split; [|exact Hnone].
      intros c sq Hc. destruct (mine sq) eqn:Hm; [left; reflexivity|].
      right. eapply Hsafe; eassumption.
  - apply win_true_iff.
Qed.

(** C5. Right after [open] is called on an unflagged mine the game is
    exploded, and an exploded game stays exploded through every further
    [open] and [toggle_flag]. *)
Theorem exploded_once_and_for_all :
  (forall fuel g c sq,
     cell g c = Some sq -> mine sq = true -> flagged sq = false ->
     exploded (state_of (open (S fuel) g c)) = Ok true)
  /\ (forall fuel g c,
        exploded g = Ok true -> exploded (state_of (open fuel g c)) = Ok true)
  /\ (forall g c,
        exploded g = Ok true -> exploded (state_of (toggle_flag g c)) = Ok true).
Proof.
  split_and!.
  - intros fuel g c sq Hc Hm Hf. apply exploded_true_iff.
    destruct (open_opens_unflagged fuel g c sq Hc Hf) as (sq' & H' & Ho & Hm').
    exists c, sq'. split_and!; [exact H'|congruence|exact Ho].
  - intros fuel g c. apply open_keeps_exploded.
  - intros g c. apply toggle_flag_keeps_exploded.
Qed.

Lemma exploded_once_and_for_all_witness :
  exploded (state_of (open 2 mine_in_the_middle (1, 1))) = Ok true
  /\ exploded
       (state_of
          (toggle_flag
             (state_of (open 4 (state_of (open 2 mine_in_the_middle (1, 1)))
                          (0, 0)))
             (2, 2)))
     = Ok true.
Proof.
  destruct exploded_once_and_for_all as (Hfirst & Hopen & Htoggle).
  assert (exploded (state_of (open 2 mine_in_the_middle (1, 1))) = Ok true)
    as Hboom.
  { apply (Hfirst 1%nat mine_in_the_middle (1, 1) (mkSquare false true false));
      reflexivity. }
  split; [exact Hboom|]. apply Htoggle, Hopen, Hboom.
Defined.

(** ** Flag toggling *)

Lemma toggle_flag_twice g c sq :
  cell g c = Some sq -> opened sq = false ->
  exists g1 sq1,
    toggle_flag g c = Returns g1
    /\ cell g1 c = Some sq1
    /\ flagged sq1 = negb (flagged sq)
    /\ toggle_flag g1 c = Returns g.
Proof.
  intros Hc Ho. rewrite (toggle_flag_closed g c sq Hc Ho).
  set (g1 := with_squares g _).
  assert (cell g1 c = Some (set_flagged (negb (flagged sq)) sq)) as H1.
  { unfold g1, cell; simpl. rewrite dict_get_modify_eq.
    unfold cell in Hc. rewrite Hc. reflexivity. }
  exists g1, (set_flagged (negb (flagged sq)) sq).
  split_and!; [reflexivity|exact H1|reflexivity|].
  rewrite (toggle_flag_closed g1 c _ H1 Ho). f_equal.
  unfold g1, with_squares; simpl. rewrite dict_modify_twice.
  rewrite dict_modify_fixed; [destruct g; reflexivity|].
  intros sq0 Hsq0. unfold cell in Hc. assert (sq0 = sq) as -> by congruence.
  destruct sq as [o m f]. unfold set_flagged; simpl.
  rewrite negb_involutive. reflexivity.
Qed.

Lemma toggle_flag_times_opened n g c sq :
  cell g c = Some sq -> opened sq = true ->
  toggle_flag_times n g c = Returns g.
Proof.
  intros Hc Ho. induction n as [|n IH]; simpl; [reflexivity|].
  rewrite (toggle_flag_opened g c sq Hc Ho). simpl. exact IH.
Qed.

(** C9. On a closed square two calls of [toggle_flag] in a row restore the
    flag (and with it the whole game), the first having flipped it; on an
    opened square any number of calls leaves the game as it was. *)
Theorem toggle_flag_involutive (g : Game) (c : coord) (sq : Square) :
  cell g c = Some sq ->
  (opened sq = false ->
   exists g1 sq1,
     toggle_flag g c = Returns g1
     /\ cell g1 c = Some sq1 /\ flagged sq1 = negb (flagged sq)
     /\ toggle_flag g1 c = Returns g)
  /\ (opened sq = true -> forall n, toggle_flag_times n g c = Returns g).
Proof.
  intros Hc. split.
  - intros Ho. apply toggle_flag_twice; assumption.
  - intros Ho n. eapply toggle_flag_times_opened; eassumption.
Qed.

Lemma toggle_flag_involutive_witness :
  cell three_in_a_row (0, 2) = Some (mkSquare false true false)
  /\ toggle_flag_times 2 three_in_a_row (0, 2) = Returns three_in_a_row
  /\ cell (state_of (open 1 three_in_a_row (0, 1))) (0, 1)
     = Some (mkSquare true false false)
  /\ toggle_flag_times 5 (state_of (open 1 three_in_a_row (0, 1))) (0, 1)
     = Returns (state_of (open 1 three_in_a_row (0, 1))).
Proof.
  split; [reflexivity|]. split.
  - destruct (toggle_flag_involutive three_in_a_row (0, 2)
                (mkSquare false true false) eq_refl) as [Hclosed _].
    destruct (Hclosed eq_refl) as (g1 & sq1 & H1 & _ & _ & H2).
    cbn [toggle_flag_times]. rewrite H1. cbn [and_then]. rewrite H2.
    reflexivity.
  - split; [reflexivity|].
    destruct (toggle_flag_involutive
                (state_of (open 1 three_in_a_row (0, 1))) (0, 1)
                (mkSquare true false false) eq_refl) as [_ Hopened].
    apply Hopened. reflexivity.
Defined.

(** ** Coordinates outside the grid *)

Lemma outside_missing g c :
  well_formed g -> in_grid g c = false -> cell g c = None.
Proof.
  intros Hwf Hout. destruct (cell g c) as [sq|] eqn:Hc; [|reflexivity].
  apply cell_is_key in Hc. rewrite Hwf in Hc.
  apply in_grid_elem_of in Hc. congruence.
Qed.

Lemma open_missing fuel g c :
  cell g c = None -> open (S fuel) g c = Raises KeyError g.
Proof.
  intros H. apply getitem_missing in H. rewrite open_unfold, H. reflexivity.
Qed.

Lemma number_of_mines_around_returns g c :
  well_formed g ->
  number_of_mines_around g c
  = Ok (Z.of_nat (length (List.filter (is_mine g) (coords_around g c)))).
Proof.
  intros Hwf. unfold number_of_mines_around, mines_around.
  rewrite mines_among_keys by (intros c'; apply coords_around_keys, Hwf).
  simpl. rewrite count_loop. reflexivity.
Qed.

(** C6, as stated for [number_of_mines_around], fails: on a coordinate
    outside the grid the call returns. *)
Lemma number_of_mines_around_outside_counterexample :
  ~ (forall g c, well_formed g -> in_grid g c = false ->
       exists e, number_of_mines_around g c = Raise e).
Proof.
  intros H. destruct (H two_squares (5, 5) eq_refl eq_refl) as [e He].
  vm_compute in He. discriminate He.
Qed.

(** C6, amended.  On a coordinate outside the grid [open] and [toggle_flag]
    raise [KeyError] and leave the game as it was; [number_of_mines_around]
    returns the number of mines on the grid squares next to the
    coordinate. *)
Theorem out_of_range (g : Game) (c : coord) :
  well_formed g -> in_grid g c = false ->
  (forall fuel, open (S fuel) g c = Raises KeyError g)
  /\ toggle_flag g c = Raises KeyError g
  /\ number_of_mines_around g c
     = Ok (Z.of_nat (length (List.filter (is_mine g) (coords_around g c)))).
Proof.
  intros Hwf Hout. pose proof (outside_missing g c Hwf Hout) as Hc.
  split_and!.
  - intros fuel. apply open_missing, Hc.
  - apply toggle_flag_missing, Hc.
  - apply number_of_mines_around_returns, Hwf.
Qed.

Lemma out_of_range_witness :
  open 1 three_in_a_row (0, 3) = Raises KeyError three_in_a_row
  /\ toggle_flag three_in_a_row (0, 3) = Raises KeyError three_in_a_row
  /\ number_of_mines_around three_in_a_row (0, 3) = Ok 1.
Proof.
  destruct (out_of_range three_in_a_row (0, 3) eq_refl eq_refl)
    as (Hopen & Htoggle & Hcount).
  split; [apply Hopen|]. split; [exact Htoggle|]. exact Hcount.
Defined.

(** ** Fresh games *)

Lemma fresh_is_mine w h m l g c :
  fresh w h m l g -> c ∈ grid_coords w h -> is_mine g c = bool_decide (c ∈ l).
Proof.
  intros (_ & _ & _ & _ & _ & _ & _ & Hcells) Hin.
  rewrite (is_mine_cell _ _ _ (Hcells c Hin)). reflexivity.
Qed.

Lemma fresh_mined_coords w h m l g :
  fresh w h m l g -> NoDup (mined_coords g) /\ mined_coords g ≡ₚ l.
Proof.
  intros Hfresh. pose proof Hfresh as (_ & _ & _ & Hkeys & _ & Hnd & Hsub & _).
  assert (NoDup (mined_coords g)) as Hnd'.
  { unfold mined_coords. rewrite Hkeys.
    apply NoDup_ListNoDup, List.NoDup_filter, NoDup_ListNoDup.
    apply NoDup_grid_coords. }
  split; [exact Hnd'|]. apply NoDup_Permutation; [exact Hnd'|exact Hnd|].
  intros c. unfold mined_coords. rewrite Hkeys, list_elem_of_In, filter_In.
  rewrite <- list_elem_of_In. split.
  - intros [Hin Hmine]. rewrite (fresh_is_mine _ _ _ _ _ _ Hfresh Hin) in Hmine.
    apply bool_decide_eq_true_1 in Hmine. exact Hmine.
  - intros Hin. split; [apply Hsub, Hin|].
    rewrite (fresh_is_mine _ _ _ _ _ _ Hfresh (Hsub c Hin)).
    apply bool_decide_eq_true_2, Hin.
Qed.

Lemma fresh_cells w h m l g c sq :
  fresh w h m l g -> cell g c = Some sq ->
  c ∈ grid_coords w h /\ opened sq = false /\ flagged sq = false
  /\ mine sq = bool_decide (c ∈ l).
Proof.
  intros (_ & _ & _ & Hkeys & _ & _ & _ & Hcells) Hc.
  assert (c ∈ grid_coords w h) as Hin
    by (rewrite <- Hkeys; eapply cell_is_key, Hc).
  rewrite (Hcells c Hin) in Hc. injection Hc as <-.
  split_and!; [exact Hin|reflexivity|reflexivity|reflexivity].
Qed.

Lemma fresh_full_every_mine w h l g c :
  fresh w h (w * h) l g -> c ∈ grid_coords w h -> c ∈ l.
Proof.
  intros (_ & _ & _ & _ & Hlen & Hnd & Hsub & _) Hin.
  assert (0 < w /\ 0 < h) as [Hw Hh].
  { destruct c as [x y]. apply elem_of_grid_coords in Hin. lia. }
  apply list_elem_of_In.
  apply NoDup_ListNoDup in Hnd.
  apply (@NoDup_length_incl _ l (grid_coords w h) Hnd);
    [| |apply list_elem_of_In, Hin].
  - pose proof (length_grid_coords w h) as Hgrid.
    rewrite !Z.max_r in Hgrid by lia. lia.
  - intros c' Hc'. apply list_elem_of_In, Hsub, list_elem_of_In, Hc'.
Qed.

(** C7, as stated, fails: a game with a dimension that is not positive
    is constructed when it has no mine. *)
Lemma construction_counterexample :
  ~ (forall rnd w h m,
       (m > w * h \/ w <= 0 \/ h <= 0 ->
        exists e, Game_init rnd w h m = Raise e)
       /\ (~ (m > w * h \/ w <= 0 \/ h <= 0) ->
           exists g, Game_init rnd w h m = Ok g)).
Proof.
  intros H. destruct (H (always 0%nat) 0 3 0) as [Hfail _].
  destruct Hfail as [e He]; [lia|]. vm_compute in He. discriminate He.
Qed.

(** C7, amended.  Construction raises [ValueError] exactly when the number
    of mines is negative or exceeds the number of grid positions, which is
    [max(0,width) * max(0,height)], and returns a game otherwise.  So it
    fails when the mines exceed [width * height] for positive dimensions,
    and with a dimension that is not positive it fails unless there is no
    mine. *)
Theorem construction_fails_iff (rnd : nat -> nat) (w h m : Z) :
  (Game_init rnd w h m = Raise ValueError
   <-> m < 0 \/ m > Z.max 0 w * Z.max 0 h)
  /\ ((exists g, Game_init rnd w h m = Ok g)
      <-> 0 <= m <= Z.max 0 w * Z.max 0 h)
  /\ (0 < w -> 0 < h -> m > w * h -> Game_init rnd w h m = Raise ValueError)
  /\ (w <= 0 \/ h <= 0 ->
      (Game_init rnd w h m = Raise ValueError <-> m <> 0)).
Proof.
  assert (Game_init rnd w h m = Raise ValueError
          <-> m < 0 \/ m > Z.max 0 w * Z.max 0 h) as Hfail.
  { split.
    - intros Hraise.
      destruct (decide (0 <= m <= Z.max 0 w * Z.max 0 h)) as [Hm|Hm]; [|lia].
      destruct (Game_init_returns rnd w h m Hm) as (g & l & Hg & _).
      congruence.
    - intros Hm. apply Game_init_raises. lia. }
  split_and!.
  - exact Hfail.
  - split.
    + intros [g Hg]. apply Game_init_fresh in Hg as [Hm _]. exact Hm.
    + intros Hm. destruct (Game_init_returns rnd w h m Hm) as (g & l & Hg & _).
      exists g. exact Hg.
  - intros Hw Hh Hm. apply Hfail. right. rewrite !Z.max_r by lia. exact Hm.
  - intros Hdim. rewrite Hfail.
    assert (Z.max 0 w * Z.max 0 h = 0) as -> by (destruct Hdim; lia).
    lia.
Qed.

Lemma construction_fails_iff_witness :
  Game_init (always 0%nat) 2 2 5 = Raise ValueError
  /\ Game_init (always 0%nat) 0 3 1 = Raise ValueError
  /\ Game_init (always 0%nat) 2 2 (-1) = Raise ValueError
  /\ exists g, Game_init (always 0%nat) 0 3 0 = Ok g.
Proof.
  split_and!.
  - apply (proj1 (proj2 (proj2 (construction_fails_iff (always 0%nat) 2 2 5))));
      lia.
  - apply (proj2 (proj2 (proj2 (construction_fails_iff (always 0%nat) 0 3 1))));
      lia.
  - apply (proj1 (construction_fails_iff (always 0%nat) 2 2 (-1))). lia.
  - apply (proj1 (proj2 (construction_fails_iff (always 0%nat) 0 3 0))). lia.
Defined.

(** C8. In a freshly constructed game the keys are the grid positions,
    every square is closed and unflagged, and the coordinates with a mine
    are pairwise distinct and [mines] in number. *)
Theorem fresh_game (rnd : nat -> nat) (w h m : Z) (g : Game) :
  Game_init rnd w h m = Ok g ->
  (forall x y, 0 <= x < w -> 0 <= y < h ->
     exists sq, cell g (x, y) = Some sq
       /\ opened sq = false /\ flagged sq = false)
  /\ (forall c sq, cell g c = Some sq ->
        in_grid g c = true /\ opened sq = false /\ flagged sq = false)
  /\ NoDup (mined_coords g)
  /\ Z.of_nat (length (mined_coords g)) = m.
Proof.
  intros Hinit. apply Game_init_fresh in Hinit as [_ [l Hfresh]].
  pose proof Hfresh as (Hw & Hh & _ & Hkeys & Hlen & _ & _ & Hcells).
  destruct (fresh_mined_coords _ _ _ _ _ Hfresh) as [Hnd Hperm].
  split_and!.
  - intros x y Hx Hy. eexists. split.
    + apply Hcells, elem_of_grid_coords. split; assumption.
    + split; reflexivity.
  - intros c sq Hc.
    destruct (fresh_cells _ _ _ _ _ _ _ Hfresh Hc) as (Hin & Ho & Hf & _).
    split_and!; [|exact Ho|exact Hf].
    apply in_grid_elem_of. rewrite Hw, Hh. exact Hin.
  - exact Hnd.
  - rewrite (Permutation_length Hperm). exact Hlen.
Qed.

Lemma fresh_game_witness :
  Game_init (always 4) 3 3 1 = Ok mine_in_the_middle
  /\ cell mine_in_the_middle (2, 1) = Some Square_init
  /\ mined_coords mine_in_the_middle = [(1, 1)]
  /\ Z.of_nat (length (mined_coords mine_in_the_middle)) = 1.
Proof.
  split; [reflexivity|]. split; [reflexivity|]. split; [reflexivity|].
  apply (fresh_game (always 4) 3 3 1 mine_in_the_middle). reflexivity.
Defined.

(** C10. A fresh game whose mines fill the grid is won, and so over,
    before any call of [open] or [toggle_flag], with every square closed. *)
Theorem full_board_is_won (rnd : nat -> nat) (w h m : Z) (g : Game) :
  Game_init rnd w h m = Ok g -> m = w * h ->
  win g = Ok true /\ over g = Ok true
  /\ forall c sq, cell g c = Some sq -> opened sq = false.
Proof.
  intros Hinit ->. apply Game_init_fresh in Hinit as [_ [l Hfresh]].
  assert (forall c sq, cell g c = Some sq ->
            mine sq = true /\ opened sq = false) as Hall.
  { intros c sq Hc.
    destruct (fresh_cells _ _ _ _ _ _ _ Hfresh Hc) as (Hin & Ho & _ & Hm).
    split; [|exact Ho]. rewrite Hm. apply bool_decide_eq_true_2.
    eapply fresh_full_every_mine; eassumption. }
  assert (win g = Ok true) as Hwin.
  { apply win_true_iff. split.
    - intros c sq Hc. left. apply (Hall c sq Hc).
    - apply exploded_false_iff. intros c sq Hc _. apply (Hall c sq Hc). }
  split_and!.
  - exact Hwin.
  - rewrite over_eq. rewrite win_eq in Hwin. injection Hwin as Hwin.
    apply andb_true_iff in Hwin as [-> _]. rewrite orb_true_r. reflexivity.
  - intros c sq Hc. apply (Hall c sq Hc).
Qed.

Lemma full_board_is_won_witness :
  exists g, Game_init (always 1) 2 2 4 = Ok g
    /\ win g = Ok true /\ over g = Ok true.
Proof.
  eexists. split; [reflexivity|].
  destruct (full_board_is_won (always 1) 2 2 4 _ eq_refl eq_refl)
    as (Hwin & Hover & _).
  split; [exact Hwin|exact Hover].
Defined.

(** ** Termination of [open]

    Without flags every nested call of [open] is on a closed square and
    opens it, so the calls on the stack are on different squares. *)

Lemma filter_length_le (p q : coord -> bool) (l : list coord) :
  (forall x, x ∈ l -> p x = true -> q x = true) ->
  (length (List.filter p l) <= length (List.filter q l))%nat.
Proof.
  induction l as [|x l IH]; intros Hpq; simpl; [lia|].
  assert (length (List.filter p l) <= length (List.filter q l))%nat as Hle
    by (apply IH; intros y Hy; apply Hpq; right; exact Hy).
  pose proof (Hpq x ltac:(left)) as Hx.
  destruct (p x); [rewrite (Hx eq_refl)|destruct (q x)]; simpl; lia.
Qed.

Lemma filter_length_lt (p q : coord -> bool) (l : list coord) (x : coord) :
  (forall y, y ∈ l -> p y = true -> q y = true) ->
  x ∈ l -> q x = true -> p x = false ->
  (length (List.filter p l) < length (List.filter q l))%nat.
Proof.
  induction l as [|y l IH]; intros Hpq Hin Hq Hp; [inversion Hin|].
  assert (forall z, z ∈ l -> p z = true -> q z = true) as Hpq'
    by (intros z Hz; apply Hpq; right; exact Hz).
  pose proof (filter_length_le p q l Hpq') as Hle.
  pose proof (Hpq y ltac:(left)) as Hy. simpl.
  apply elem_of_cons in Hin as [<-|Hin].
  - rewrite Hp, Hq. simpl. lia.
  - specialize (IH Hpq' Hin Hq Hp).
    destruct (p y); [rewrite (Hy eq_refl)|destruct (q y)]; simpl; lia.
Qed.

Lemma opening_well_formed direct g g' :
  opening direct g g' -> well_formed g -> well_formed g'.
Proof.
  intros (Hw & Hh & _ & Hkeys & _) Hwf. unfold well_formed in *. congruence.
Qed.

Lemma opening_cell_back direct g g' c sq' :
  opening direct g g' -> cell g' c = Some sq' ->
  exists sq, cell g c = Some sq /\ flagged sq' = flagged sq
    /\ (opened sq = true -> opened sq' = true).
Proof.
  intros (_ & _ & _ & Hkeys & Hcells) Hc'.
  assert (c ∈ all_coords g) as Hin
    by (rewrite <- Hkeys; eapply cell_is_key, Hc').
  apply dict_key_get in Hin as [sq Hsq]. exists sq.
  destruct (Hcells c sq Hsq) as (sq'' & Hsq'' & _ & Hflag & Hkeep & _).
  assert (sq'' = sq') as -> by congruence.
  split_and!; [exact Hsq|exact Hflag|exact Hkeep].
Qed.

Lemma opening_unflagged direct g g' :
  opening direct g g' -> unflagged g -> unflagged g'.
Proof.
  intros Hop Hun c sq' Hc'.
  destruct (opening_cell_back _ _ _ _ _ Hop Hc') as (sq & Hsq & Hflag & _).
  rewrite Hflag. eapply Hun, Hsq.
Qed.

Lemma opening_closed_count direct g g' :
  opening direct g g' -> (closed_count g' <= closed_count g)%nat.
Proof.
  intros Hop. pose proof Hop as (_ & _ & _ & Hkeys & _).
  unfold closed_count. rewrite Hkeys. apply filter_length_le.
  intros c _. unfold is_closed.
  destruct (cell g' c) as [sq'|] eqn:Hc'; [|discriminate].
  destruct (opening_cell_back _ _ _ _ _ Hop Hc') as (sq & -> & _ & Hkeep).
  destruct (opened sq); [|reflexivity]. rewrite (Hkeep eq_refl). discriminate.
Qed.

Lemma closed_elsewhere_lt g c sq :
  cell g c = Some sq -> opened sq = false ->
  (closed_elsewhere g c < closed_count g)%nat.
Proof.
  intros Hc Ho. apply (filter_length_lt _ _ _ c).
  - intros y _ Hy. apply andb_true_iff in Hy as [Hy _]. exact Hy.
  - eapply cell_is_key, Hc.
  - unfold is_closed. rewrite Hc, Ho. reflexivity.
  - rewrite coord_eqb_refl, andb_false_r. reflexivity.
Qed.

Lemma closed_elsewhere_lt_keys g c :
  c ∈ all_coords g -> (closed_elsewhere g c < length (all_coords g))%nat.
Proof.
  intros Hin.
  assert (forall l : list coord, List.filter (fun _ => true) l = l) as Hall
    by (induction l as [|x l IH]; simpl; [|rewrite IH]; reflexivity).
  rewrite <- (Hall (all_coords g)). unfold closed_elsewhere.
  apply (filter_length_lt _ _ _ c); try done.
  rewrite coord_eqb_refl, andb_false_r. reflexivity.
Qed.

Lemma closed_count_set_opened g c :
  (closed_count (with_squares g (dict_modify (set_opened true) (_squares g) c))
   <= closed_elsewhere g c)%nat.
Proof.
  unfold closed_count, closed_elsewhere, all_coords; simpl.
  rewrite dict_keys_modify. apply filter_length_le.
  intros k _. unfold is_closed, cell; simpl.
  destruct (decide (c = k)) as [<-|Hne].
  - rewrite dict_get_modify_eq.
    destruct (dict_get (_squares g) c); simpl; discriminate.
  - rewrite dict_get_modify_ne by exact Hne. intros ->.
    rewrite coord_eqb_neq by congruence. reflexivity.
Qed.

Section Cascade.
Variable fuel : nat.
Hypothesis open_returns_rec : forall g c,
  well_formed g -> unflagged g -> c ∈ all_coords g ->
  (closed_elsewhere g c < fuel)%nat ->
  exists g', open fuel g c = Returns g'.

Lemma auto_open_loop_returns l : forall g,
  well_formed g -> unflagged g ->
  (forall c, c ∈ l -> c ∈ all_coords g) ->
  (closed_count g <= fuel)%nat ->
  exists g',
    for_each
      (fun g coords =>
         sq ← getitem g coords at g;
         if negb (opened sq) then open fuel g coords else Returns g)
      g l = Returns g'.
Proof.
  induction l as [|c l IH]; intros g Hwf Hun Hkeys Hcount; simpl.
  - exists g. reflexivity.
  - destruct (dict_key_get _ c (Hkeys c ltac:(left))) as [sq Hsq].
    rewrite (proj2 (getitem_cell g c sq) Hsq); simpl.
    assert (forall c', c' ∈ l -> c' ∈ all_coords g) as Hkeys'
      by (intros c' Hc'; apply Hkeys; right; exact Hc').
    destruct (opened sq) eqn:Ho; simpl.
    + apply IH; assumption.
    + destruct (open_returns_rec g c Hwf Hun (Hkeys c ltac:(left)))
        as [g1 Hg1].
      { pose proof (closed_elsewhere_lt g c sq Hsq Ho). lia. }
      pose proof (open_opening fuel g c) as Hop. rewrite Hg1 in Hop.
      simpl in Hop. rewrite Hg1. simpl. apply IH.
      * eapply opening_well_formed; eassumption.
      * eapply opening_unflagged; eassumption.
      * destruct Hop as (_ & _ & _ & -> & _). exact Hkeys'.
      * pose proof (opening_closed_count _ _ _ Hop). lia.
Qed.
End Cascade.

Lemma open_returns_fuel fuel : forall g c,
  well_formed g -> unflagged g -> c ∈ all_coords g ->
  (closed_elsewhere g c < fuel)%nat ->
  exists g', open fuel g c = Returns g'.
Proof.
  induction fuel as [|fuel IH]; intros g c Hwf Hun Hkey Hcount; [lia|].
  rewrite open_unfold. destruct (dict_key_get _ c Hkey) as [sq Hsq].
  rewrite (proj2 (getitem_cell g c sq) Hsq); simpl.
  rewrite (Hun c sq Hsq); simpl. erewrite setattr_cell by exact Hsq. simpl.
  set (g1 := with_squares g _).
  pose proof (opening_set_opened g c sq Hsq (Hun c sq Hsq)) as Hop.
  fold g1 in Hop.
  assert (well_formed g1) as Hwf1 by (eapply opening_well_formed; eassumption).
  rewrite (number_of_mines_around_returns g1 c Hwf1). simpl.
  destruct (_ =? 0); [|exists g1; reflexivity].
  apply auto_open_loop_returns.
  - exact IH.
  - exact Hwf1.
  - eapply opening_unflagged; eassumption.
  - intros c'. apply coords_around_keys, Hwf1.
  - pose proof (closed_count_set_opened g c). fold g1 in H. lia.
Qed.

(** On a game without flags [open] returns, and needs no more nested calls
    than the grid has positions. *)
Lemma open_returns_without_flags (fuel : nat) (g : Game) (c : coord) :
  well_formed g -> unflagged g -> in_grid g c = true ->
  width g * height g <= Z.of_nat fuel ->
  exists g', open fuel g c = Returns g'.
Proof.
  intros Hwf Hun Hin Hfuel.
  assert (c ∈ all_coords g) as Hkey
    by (rewrite Hwf; apply in_grid_elem_of, Hin).
  apply open_returns_fuel; try assumption.
  pose proof (closed_elsewhere_lt_keys g c Hkey) as Hlt.
  assert (Z.of_nat (length (all_coords g)) = width g * height g) as Hlen.
  { rewrite Hwf, length_grid_coords. destruct c as [x y].
    apply in_grid_elem_of, elem_of_grid_coords in Hin. lia. }
  lia.
Qed.

(** ** Recursion through flagged squares *)

Lemma open_flagged fuel g c sq :
  cell g c = Some sq -> flagged sq = true ->
  number_of_mines_around g c = Ok 0 ->
  open (S fuel) g c = auto_open fuel g c.
Proof.
  intros Hc Hf Hzero. rewrite open_unfold.
  rewrite (proj2 (getitem_cell g c sq) Hc); simpl. rewrite Hf; simpl.
  rewrite Hzero. reflexivity.
Qed.

Lemma two_flags_overflow fuel :
  open fuel two_flags (0, 0) = Raises RecursionError two_flags
  /\ open fuel two_flags (0, 1) = Raises RecursionError two_flags.
Proof.
  induction fuel as [|fuel [IH0 IH1]]; [split; reflexivity|].
  rewrite !(open_flagged fuel two_flags _ (mkSquare false false true))
    by reflexivity.
  unfold auto_open, auto_open_with.
  change (coords_around two_flags (0, 0)) with [(0, 1)].
  change (coords_around two_flags (0, 1)) with [(0, 0)].
  unfold for_each.
  change (getitem two_flags (0, 0)) with (Ok (mkSquare false false true)).
  change (getitem two_flags (0, 1)) with (Ok (mkSquare false false true)).
  cbn [query opened negb]. rewrite IH0, IH1. split; reflexivity.
Qed.

(** One flagged square is enough for a third nested call on a grid of two
    positions. *)
Example one_flag_depth :
  toggle_flag two_squares (0, 0) = Returns one_flag
  /\ (exists g, open 2 one_flag (0, 0) = Raises RecursionError g)
  /\ (exists g, open 3 one_flag (0, 0) = Returns g).
Proof. split_and!; [reflexivity|eexists; reflexivity..]. Qed.

(** C1 fails on the code.  In [Game(1, 2, 0)] with both squares flagged,
    [open((0, 0))] recurses from one square to the other without end:
    whatever the recursion limit, the call raises [RecursionError]. *)
Theorem open_between_flags_never_returns (rnd : nat -> nat) (fuel : nat) :
  Game_init rnd 1 2 0 = Ok two_squares
  /\ (g1 ⇐ toggle_flag two_squares (0, 0); toggle_flag g1 (0, 1))
     = Returns two_flags
  /\ in_grid two_flags (0, 0) = true
  /\ open fuel two_flags (0, 0) = Raises RecursionError two_flags.
Proof.
  split_and!; [reflexivity|reflexivity|reflexivity|].
  apply two_flags_overflow.
Qed.

(** * Further properties *)

(** ** The neighbours of a coordinate *)

Lemma elem_of_offsets (d : Z) : In d [-1; 0; 1] <-> -1 <= d <= 1.
Proof. simpl. lia. Qed.

Lemma coords_around_spec g cx cy x y :
  (x, y) ∈ coords_around g (cx, cy) <->
  in_grid g (x, y) = true /\ (x, y) <> (cx, cy)
  /\ cx - 1 <= x <= cx + 1 /\ cy - 1 <= y <= cy + 1.
Proof.
  unfold coords_around. rewrite list_elem_of_In, in_flat_map. split.
  - intros (dx & Hdx & Hin). apply in_flat_map in Hin as (dy & Hdy & Hin).
    apply elem_of_offsets in Hdx, Hdy.
    destruct ((dx =? dy) && (dy =? 0)) eqn:Hcentre; [destruct Hin|].
    destruct (in_range (cx + dx) (width g) && in_range (cy + dy) (height g))
      eqn:Hgrid; [|destruct Hin].
    destruct Hin as [[= <- <-]|[]].
    apply andb_false_iff in Hcentre. rewrite !Z.eqb_neq in Hcentre.
    split_and!; try lia; [exact Hgrid|].
    intros [= Hx Hy]. lia.
  - intros (Hgrid & Hne & Hx & Hy).
    exists (x - cx). split; [apply elem_of_offsets; lia|].
    apply in_flat_map. exists (y - cy). split; [apply elem_of_offsets; lia|].
    replace ((x - cx =? y - cy) && (y - cy =? 0)) with false.
    + replace (cx + (x - cx)) with x by lia.
      replace (cy + (y - cy)) with y by lia.
      unfold in_grid in Hgrid; simpl in Hgrid. rewrite Hgrid. left. reflexivity.
    + symmetry. apply andb_false_iff. rewrite !Z.eqb_neq.
      destruct (decide (y = cy)) as [->|]; [left|right; lia].
      intros Heq. apply Hne. f_equal. lia.
Qed.

Lemma sublist_optional (b : bool) (p : coord) (l k : list coord) :
  sublist l k -> sublist ((if b then [p] else []) ++ l) (p :: k).
Proof.
  intros H. destruct b; simpl; [apply sublist_skip|apply sublist_cons]; exact H.
Qed.

Lemma coords_around_sublist g cx cy :
  sublist (coords_around g (cx, cy))
    [(cx + -1, cy + -1); (cx + -1, cy + 0); (cx + -1, cy + 1);
     (cx + 0, cy + -1); (cx + 0, cy + 1);
     (cx + 1, cy + -1); (cx + 1, cy + 0); (cx + 1, cy + 1)].
Proof.
  unfold coords_around. simpl. rewrite !app_nil_r, <- !app_assoc.
  repeat apply sublist_optional.
  destruct (_ && _); [reflexivity|apply sublist_nil_l].
Qed.

Lemma coords_around_NoDup g c : NoDup (coords_around g c).
Proof.
  destruct c as [cx cy]. eapply sublist_NoDup; [|apply coords_around_sublist].
  repeat (apply NoDup_cons; split;
          [rewrite ?elem_of_cons, elem_of_nil;
           intros H; repeat destruct H as [H|H]; try injection H; lia|]).
  apply NoDup_nil_2.
Qed.

Lemma coords_around_length g c : (length (coords_around g c) <= 8)%nat.
Proof.
  destruct c as [cx cy].
  apply (sublist_length _ _ (coords_around_sublist g cx cy)).
Qed.

(** ** Dimensions, keys and mines never change *)

Lemma cell_None_iff g c : cell g c = None <-> c ∉ all_coords g.
Proof.
  split.
  - intros Hnone Hin. apply dict_key_get in Hin as [sq Hsq].
    unfold cell in Hnone. congruence.
  - intros Hout. destruct (cell g c) as [sq|] eqn:Hc; [|reflexivity].
    apply cell_is_key in Hc. contradiction.
Qed.

Lemma is_mine_preserved g g' :
  all_coords g' = all_coords g ->
  (forall c sq, cell g c = Some sq ->
     exists sq', cell g' c = Some sq' /\ mine sq' = mine sq) ->
  forall c, is_mine g' c = is_mine g c.
Proof.
  intros Hkeys Hcells c. destruct (cell g c) as [sq|] eqn:Hc.
  - destruct (Hcells c sq Hc) as (sq' & Hc' & Hmine).
    rewrite (is_mine_cell _ _ _ Hc), (is_mine_cell _ _ _ Hc'). exact Hmine.
  - assert (cell g' c = None) as Hc'
      by (apply cell_None_iff; rewrite Hkeys; apply cell_None_iff, Hc).
    unfold is_mine. rewrite Hc, Hc'. reflexivity.
Qed.

Lemma opening_same_layout direct g g' : opening direct g g' -> same_layout g g'.
Proof.
  intros (Hw & Hh & Hm & Hkeys & Hcells). unfold same_layout.
  split_and!; try assumption. apply is_mine_preserved; [exact Hkeys|].
  intros c sq Hc. destruct (Hcells c sq Hc) as (sq' & Hc' & Hmine & _).
  exists sq'. split; assumption.
Qed.

Lemma toggle_flag_same_layout g c : same_layout g (state_of (toggle_flag g c)).
Proof.
  destruct (toggle_flag_frame g c) as (Hw & Hh & Hm & Hkeys & Hcells).
  unfold same_layout. split_and!; try assumption.
  apply is_mine_preserved; [exact Hkeys|].
  intros c' sq Hc. destruct (Hcells c' sq Hc) as (sq' & Hc' & _ & Hmine & _).
  exists sq'. split; assumption.
Qed.

Lemma same_layout_coords_around g g' c :
  same_layout g g' -> coords_around g' c = coords_around g c.
Proof.
  intros (Hw & Hh & _). destruct c as [cx cy]. unfold coords_around.
  rewrite Hw, Hh. reflexivity.
Qed.

Lemma same_layout_getitem g g' c :
  same_layout g g' ->
  match getitem g c, getitem g' c with
  | Ok sq, Ok sq' => mine sq' = mine sq
  | Raise e, Raise e' => e' = e
  | _, _ => False
  end.
Proof.
  intros (_ & _ & _ & Hkeys & Hmine). specialize (Hmine c).
  unfold getitem. fold (cell g c) (cell g' c). unfold is_mine in Hmine.
  destruct (cell g c) as [sq|] eqn:Hc, (cell g' c) as [sq'|] eqn:Hc';
    try done.
  - apply cell_is_key in Hc. rewrite <- Hkeys in Hc.
    apply cell_None_iff in Hc'. contradiction.
  - apply cell_is_key in Hc'. rewrite Hkeys in Hc'.
    apply cell_None_iff in Hc. contradiction.
Qed.

Lemma same_layout_mines_among g g' l :
  same_layout g g' -> mines_among g' l = mines_among g l.
Proof.
  intros Hsame. induction l as [|c l IH]; simpl; [reflexivity|].
  pose proof (same_layout_getitem g g' c Hsame) as Hc.
  destruct (getitem g c) as [sq|e], (getitem g' c) as [sq'|e'];
    try contradiction; simpl.
  - rewrite IH, Hc. reflexivity.
  - rewrite Hc. reflexivity.
Qed.

Lemma same_layout_number_of_mines_around g g' c :
  same_layout g g' ->
  number_of_mines_around g' c = number_of_mines_around g c.
Proof.
  intros Hsame. unfold number_of_mines_around, mines_around.
  rewrite (same_layout_coords_around g g' c Hsame).
  rewrite (same_layout_mines_among g g' _ Hsame). reflexivity.
Qed.

Lemma same_layout_mined_coords g g' :
  same_layout g g' -> mined_coords g' = mined_coords g.
Proof.
  intros (_ & _ & _ & Hkeys & Hmine). unfold mined_coords. rewrite Hkeys.
  apply filter_ext. exact Hmine.
Qed.

Lemma same_layout_no_mine_around g g' c :
  same_layout g g' -> no_mine_around g' c = no_mine_around g c.
Proof.
  intros Hsame. unfold no_mine_around.
  rewrite (same_layout_coords_around g g' c Hsame).
  destruct Hsame as (_ & _ & _ & _ & Hmine).
  induction (coords_around g c) as [|c' l IH]; simpl; [reflexivity|].
  rewrite Hmine, IH. reflexivity.
Qed.

Lemma reachable_layout g :
  reachable g ->
  well_formed g /\ Z.of_nat (length (mined_coords g)) = mines g.
Proof.
  intros Hreach. split; [apply reachable_well_formed, Hreach|].
  induction Hreach as [rnd w h m g Hinit|fuel g c _ IH|g c _ IH].
  - apply Game_init_fresh in Hinit as [_ [l Hfresh]].
    destruct (fresh_mined_coords _ _ _ _ _ Hfresh) as [_ Hperm].
    destruct Hfresh as (_ & _ & Hm & _ & Hlen & _).
    rewrite (Permutation_length Hperm). congruence.
  - pose proof (opening_same_layout _ _ _ (open_opening fuel g c)) as Hsame.
    rewrite (same_layout_mined_coords _ _ Hsame).
    destruct Hsame as (_ & _ & -> & _). exact IH.
  - pose proof (toggle_flag_same_layout g c) as Hsame.
    rewrite (same_layout_mined_coords _ _ Hsame).
    destruct Hsame as (_ & _ & -> & _). exact IH.
Qed.

Lemma well_formed_getitem g c :
  well_formed g ->
  (in_grid g c = true -> exists sq, getitem g c = Ok sq)
  /\ (in_grid g c = false -> getitem g c = Raise KeyError).
Proof.
  intros Hwf. split.
  - intros Hin. apply getitem_key. rewrite Hwf. apply in_grid_elem_of, Hin.
  - intros Hout. apply getitem_missing, outside_missing; assumption.
Qed.

(** ** [toggle_flag] touches one flag *)

Lemma toggle_flag_elsewhere g c c' :
  c' <> c -> cell (state_of (toggle_flag g c)) c' = cell g c'.
Proof.
  intros Hne. destruct (cell g c) as [sq|] eqn:Hc.
  - destruct (opened sq) eqn:Ho.
    + rewrite (toggle_flag_opened g c sq Hc Ho). reflexivity.
    + rewrite (toggle_flag_closed g c sq Hc Ho). unfold cell; simpl.
      apply dict_get_modify_ne. congruence.
  - rewrite (toggle_flag_missing g c Hc). reflexivity.
Qed.

Lemma toggle_flag_here g c sq :
  cell g c = Some sq ->
  toggle_flag g c
  = Returns (state_of (toggle_flag g c))
  /\ cell (state_of (toggle_flag g c)) c
     = Some (if opened sq then sq else set_flagged (negb (flagged sq)) sq).
Proof.
  intros Hc. destruct (opened sq) eqn:Ho.
  - rewrite (toggle_flag_opened g c sq Hc Ho). simpl. split; [reflexivity|].
    exact Hc.
  - rewrite (toggle_flag_closed g c sq Hc Ho). simpl. split; [reflexivity|].
    unfold cell; simpl. rewrite dict_get_modify_eq.
    unfold cell in Hc. rewrite Hc. reflexivity.
Qed.

(** ** A game that is over stays over *)

Lemma over_true_iff g :
  over g = Ok true <->
  (exists c sq, cell g c = Some sq /\ mine sq = true /\ opened sq = true)
  \/ (forall c sq, cell g c = Some sq -> mine sq = true \/ opened sq = true).
Proof.
  rewrite over_eq, <- exists_mine_and_opened, <- forall_mine_or_opened.
  split.
  - intros [= H]. apply orb_true_iff in H. exact H.
  - intros H. apply orb_true_iff in H. rewrite H. reflexivity.
Qed.

Lemma over_persists g g' :
  all_coords g' = all_coords g ->
  (forall c sq, cell g c = Some sq ->
     exists sq', cell g' c = Some sq' /\ mine sq' = mine sq
       /\ (opened sq = true -> opened sq' = true)) ->
  over g = Ok true -> over g' = Ok true.
Proof.
  intros Hkeys Hcells. rewrite !over_true_iff. intros [Hboom|Hall].
  - left. destruct Hboom as (c & sq & Hc & Hm & Ho).
    destruct (Hcells c sq Hc) as (sq' & Hc' & Hm' & Hkeep).
    exists c, sq'. split_and!; [exact Hc'|congruence|auto].
  - right. intros c sq' Hc'.
    assert (c ∈ all_coords g) as Hin
      by (rewrite <- Hkeys; eapply cell_is_key, Hc').
    apply dict_key_get in Hin as [sq Hc].
    destruct (Hcells c sq Hc) as (sq'' & Hc'' & Hm' & Hkeep).
    assert (sq'' = sq') as -> by congruence.
    destruct (Hall c sq Hc) as [Hm|Ho]; [left; congruence|right; auto].
Qed.

Lemma open_keeps_over fuel g c :
  over g = Ok true -> over (state_of (open fuel g c)) = Ok true.
Proof.
  destruct (open_opening fuel g c) as (_ & _ & _ & Hkeys & Hcells).
  apply over_persists; [exact Hkeys|].
  intros c' sq Hc. destruct (Hcells c' sq Hc) as (sq' & Hc' & Hm & _ & Hk & _).
  exists sq'. split_and!; assumption.
Qed.

Lemma toggle_flag_keeps_over g c :
  over g = Ok true -> over (state_of (toggle_flag g c)) = Ok true.
Proof.
  destruct (toggle_flag_frame g c) as (_ & _ & _ & Hkeys & Hcells).
  apply over_persists; [exact Hkeys|].
  intros c' sq Hc. destruct (Hcells c' sq Hc) as (sq' & Hc' & Ho & Hm & _).
  exists sq'. split_and!; [exact Hc'|exact Hm|congruence].
Qed.

(** ** [explosion_coords] *)

Lemma explosion_among_find g l :
  (forall c, c ∈ l -> c ∈ all_coords g) ->
  explosion_among g l = Ok (List.find (mine_and_opened g) l).
Proof.
  induction l as [|c l IH]; intros Hkeys; simpl; [reflexivity|].
  destruct (getitem_key g c) as [sq Hsq]; [apply Hkeys; left|].
  rewrite Hsq; simpl. apply getitem_cell in Hsq.
  unfold mine_and_opened at 1. rewrite Hsq.
  destruct (mine sq && opened sq); [reflexivity|].
  apply IH. intros c' Hc'. apply Hkeys. right. exact Hc'.
Qed.

(** ** Calls of [open] that change nothing *)

Lemma with_squares_same g : with_squares g (_squares g) = g.
Proof. destruct g. reflexivity. Qed.

Lemma open_noop fuel g c sq n :
  cell g c = Some sq -> opened sq = true \/ flagged sq = true ->
  number_of_mines_around g c = Ok n -> n <> 0 ->
  open (S fuel) g c = Returns g.
Proof.
  intros Hc Hdone Hn Hnz. rewrite open_unfold.
  rewrite (proj2 (getitem_cell g c sq) Hc); simpl.
  assert ((if negb (flagged sq) then setattr g c (set_opened true)
           else Returns g) = Returns g) as ->.
  { destruct (flagged sq) eqn:Hf; simpl; [reflexivity|].
    destruct Hdone as [Ho|]; [|discriminate].
    erewrite setattr_cell by exact Hc. f_equal.
    rewrite dict_modify_fixed; [apply with_squares_same|].
    intros sq0 Hsq0. unfold cell in Hc. assert (sq0 = sq) as -> by congruence.
    destruct sq as [o m f]. simpl in Ho. subst o. reflexivity. }
  simpl. rewrite Hn. simpl.
  destruct (n =? 0) eqn:Hz; [apply Z.eqb_eq in Hz; contradiction|reflexivity].
Qed.

(** ** When a fresh game is over *)

Lemma fresh_full_grid w h m l g c :
  fresh w h m l g -> m = Z.max 0 w * Z.max 0 h -> c ∈ grid_coords w h -> c ∈ l.
Proof.
  intros (_ & _ & _ & _ & Hlen & Hnd & Hsub & _) -> Hin.
  apply list_elem_of_In. apply NoDup_ListNoDup in Hnd.
  apply (@NoDup_length_incl _ l (grid_coords w h) Hnd);
    [| |apply list_elem_of_In, Hin].
  - pose proof (length_grid_coords w h). lia.
  - intros c' Hc'. apply list_elem_of_In, Hsub, list_elem_of_In, Hc'.
Qed.

Lemma fresh_over_iff w h m l g :
  fresh w h m l g -> (over g = Ok true <-> m = Z.max 0 w * Z.max 0 h).
Proof.
  intros Hfresh. rewrite over_true_iff. split.
  - intros [Hboom|Hall].
    + destruct Hboom as (c & sq & Hc & _ & Ho).
      destruct (fresh_cells _ _ _ _ _ _ _ Hfresh Hc) as (_ & Ho' & _).
      congruence.
    + pose proof Hfresh as (_ & _ & _ & _ & Hlen & _ & Hsub & Hcells).
      assert (length (grid_coords w h) <= length l)%nat as Hle.
      { apply NoDup_incl_length;
          [apply NoDup_ListNoDup, NoDup_grid_coords|].
        intros c Hc. apply list_elem_of_In in Hc. apply list_elem_of_In.
        destruct (Hall c _ (Hcells c Hc)) as [Hm|Ho]; [|discriminate].
        simpl in Hm. apply bool_decide_eq_true_1 in Hm. exact Hm. }
      assert (length l <= length (grid_coords w h))%nat as Hge.
      { apply NoDup_incl_length.
        - destruct Hfresh as (_ & _ & _ & _ & _ & Hnd & _).
          apply NoDup_ListNoDup, Hnd.
        - intros c Hc. apply list_elem_of_In, Hsub, list_elem_of_In, Hc. }
      pose proof (length_grid_coords w h). lia.
  - intros Hm. right. intros c sq Hc. left.
    destruct (fresh_cells _ _ _ _ _ _ _ Hfresh Hc) as (Hin & _ & _ & ->).
    apply bool_decide_eq_true_2. eapply fresh_full_grid; eassumption.
Qed.

(** ** The cascade runs to completion *)

Lemma opening_is_opened direct g g' c :
  opening direct g g' -> is_opened g c = true -> is_opened g' c = true.
Proof.
  intros (_ & _ & _ & _ & Hcells). unfold is_opened.
  destruct (cell g c) as [sq|] eqn:Hc; [|discriminate].
  destruct (Hcells c sq Hc) as (sq' & -> & _ & _ & Hkeep & _). exact Hkeep.
Qed.

Lemma settled_but_weaken (P Q : coord -> Prop) g :
  (forall c, P c -> Q c) -> settled_but P g -> settled_but Q g.
Proof. intros HPQ H c Ho Hz HQ. apply H; auto. Qed.

Lemma zero_no_mine_around g c :
  number_of_mines_around g c = Ok 0 -> no_mine_around g c = true.
Proof.
  intros Hzero. unfold no_mine_around. apply forallb_forall. intros c' Hc'.
  destruct (no_mines_around g c Hzero c') as (sq & Hsq & Hm);
    [apply list_elem_of_In, Hc'|].
  rewrite (is_mine_cell _ _ _ Hsq), Hm. reflexivity.
Qed.

Lemma no_mine_around_zero g c n :
  number_of_mines_around g c = Ok n -> no_mine_around g c = true -> n = 0.
Proof.
  intros Hn Hnone. apply number_of_mines_around_ok in Hn as [-> _].
  unfold no_mine_around in Hnone.
  induction (coords_around g c) as [|c' l IH]; simpl in *; [reflexivity|].
  apply andb_true_iff in Hnone as [Hc' Hl]. apply negb_true_iff in Hc'.
  rewrite Hc'. apply IH, Hl.
Qed.

Lemma open_returns_opened fuel g c g' sq :
  open fuel g c = Returns g' -> cell g c = Some sq -> flagged sq = false ->
  is_opened g' c = true.
Proof.
  intros Hret Hc Hf. destruct fuel as [|fuel]; [discriminate|].
  destruct (open_opens_unflagged fuel g c sq Hc Hf) as (sq' & Hc' & Ho & _).
  rewrite Hret in Hc'. simpl in Hc'. unfold is_opened. rewrite Hc'. exact Ho.
Qed.

Lemma for_each_skip (open_rec : Game -> coord -> outcome) l g :
  (forall c, c ∈ l -> is_opened g c = true) ->
  for_each
    (fun g coords =>
       sq ← getitem g coords at g;
       if negb (opened sq) then open_rec g coords else Returns g)
    g l = Returns g.
Proof.
  induction l as [|c l IH]; intros Hall; simpl; [reflexivity|].
  pose proof (Hall c ltac:(left)) as Hc. unfold is_opened in Hc.
  destruct (cell g c) as [sq|] eqn:Hsq; [|discriminate].
  rewrite (proj2 (getitem_cell g c sq) Hsq); simpl. rewrite Hc; simpl.
  apply IH. intros c' Hc'. apply Hall. right. exact Hc'.
Qed.

Section Settling.
Variable fuel : nat.
Hypothesis open_settles_rec : forall (P : coord -> Prop) g c g',
  unflagged g -> settled_but P g -> open fuel g c = Returns g' ->
  settled_but (fun s => P s /\ s <> c) g'.

Lemma auto_open_loop_settles (Q : coord -> Prop) l : forall g g',
  unflagged g -> settled_but Q g ->
  for_each
    (fun g coords =>
       sq ← getitem g coords at g;
       if negb (opened sq) then open fuel g coords else Returns g)
    g l = Returns g' ->
  settled_but Q g' /\ opening (fun _ => True) g g'
  /\ forall c, c ∈ l -> is_opened g' c = true.
Proof.
  induction l as [|c l IH]; intros g g' Hun Hset; simpl.
  - intros [= <-]. split_and!; [exact Hset|apply opening_refl|].
    intros c Hc. inversion Hc.
  - destruct (getitem g c) as [sq|e] eqn:Hsq; simpl; [|discriminate].
    apply getitem_cell in Hsq.
    destruct (opened sq) eqn:Ho; simpl.
    + intros Hloop. destruct (IH g g' Hun Hset Hloop) as (Hset' & Hop & Hall).
      split_and!; [exact Hset'|exact Hop|].
      intros c' Hc'. apply elem_of_cons in Hc' as [->|Hc']; [|auto].
      eapply opening_is_opened; [exact Hop|].
      unfold is_opened. rewrite Hsq. exact Ho.
    + destruct (open fuel g c) as [g2|e g2] eqn:Hopen; simpl; [|discriminate].
      intros Hloop.
      pose proof (open_opening fuel g c) as Hop2. rewrite Hopen in Hop2.
      simpl in Hop2.
      assert (opening (fun _ => True) g g2) as Hop2'
        by (eapply opening_weaken; [|exact Hop2]; auto).
      destruct (IH g2 g') as (Hset' & Hop & Hall).
      * eapply opening_unflagged; eassumption.
      * eapply settled_but_weaken;
          [|eapply open_settles_rec; [exact Hun|exact Hset|exact Hopen]].
        intros s [Hs _]. exact Hs.
      * exact Hloop.
      * split_and!; [exact Hset'|eapply opening_trans; eassumption|].
        intros c' Hc'. apply elem_of_cons in Hc' as [->|Hc']; [|auto].
        eapply opening_is_opened; [exact Hop|].
        eapply open_returns_opened; [exact Hopen|exact Hsq|].
        eapply Hun, Hsq.
Qed.
End Settling.

Lemma set_opened_settled_but (P : coord -> Prop) g c sq :
  cell g c = Some sq -> flagged sq = false -> settled_but P g ->
  settled_but (fun s => P s \/ s = c)
    (with_squares g (dict_modify (set_opened true) (_squares g) c)).
Proof.
  intros Hc Hf Hset. set (g1 := with_squares g _).
  pose proof (opening_set_opened g c sq Hc Hf) as Hop. fold g1 in Hop.
  pose proof (opening_same_layout _ _ _ Hop) as Hsame.
  intros s Ho Hz Hpend c' Hc'.
  assert (s <> c) as Hne by tauto.
  rewrite (same_layout_coords_around _ _ _ Hsame) in Hc'.
  rewrite (same_layout_no_mine_around _ _ _ Hsame) in Hz.
  eapply opening_is_opened; [exact Hop|]. apply (Hset s); try tauto.
  unfold is_opened, g1, cell in Ho; simpl in Ho.
  rewrite dict_get_modify_ne in Ho by congruence. exact Ho.
Qed.

Lemma open_settles fuel : forall (P : coord -> Prop) g c g',
  unflagged g -> settled_but P g -> open fuel g c = Returns g' ->
  settled_but (fun s => P s /\ s <> c) g'.
Proof.
  induction fuel as [|fuel IH]; intros P g c g' Hun Hset; [discriminate|].
  rewrite open_unfold.
  destruct (getitem g c) as [sq|e] eqn:Hsq; simpl; [|discriminate].
  apply getitem_cell in Hsq. rewrite (Hun c sq Hsq); simpl.
  erewrite setattr_cell by exact Hsq. simpl.
  set (g1 := with_squares g _).
  pose proof (set_opened_settled_but P g c sq Hsq (Hun c sq Hsq) Hset) as Hset1.
  pose proof (opening_set_opened g c sq Hsq (Hun c sq Hsq)) as Hop1.
  fold g1 in Hset1, Hop1.
  destruct (number_of_mines_around g1 c) as [n|e] eqn:Hn; simpl; [|discriminate].
  destruct (n =? 0) eqn:Hz.
  - apply Z.eqb_eq in Hz; subst n. unfold auto_open, auto_open_with.
    intros Hloop.
    destruct (auto_open_loop_settles fuel IH _ _ g1 g'
                (opening_unflagged _ _ _ Hop1 Hun) Hset1 Hloop)
      as (Hset' & Hop & Hall).
    intros s Ho Hzero Hpend c' Hc'.
    destruct (decide (s = c)) as [->|Hne].
    + apply Hall.
      rewrite <- (same_layout_coords_around _ _ c (opening_same_layout _ _ _ Hop)).
      exact Hc'.
    + apply (Hset' s Ho Hzero); [|exact Hc']. intros [HP|Heq]; tauto.
  - intros [= <-]. intros s Ho Hzero Hpend c' Hc'.
    destruct (decide (s = c)) as [->|Hne].
    + apply (no_mine_around_zero _ _ _ Hn) in Hzero. subst n. discriminate.
    + apply (Hset1 s Ho Hzero); [|exact Hc']. intros [HP|Heq]; tauto.
Qed.

Lemma open_again fuel fuel' g c g' :
  unflagged g -> open fuel g c = Returns g' -> open (S fuel') g' c = Returns g'.
Proof.
  intros Hun Hret.
  pose proof (open_opening fuel g c) as Hop. rewrite Hret in Hop. simpl in Hop.
  pose proof (opening_unflagged _ _ _ Hop Hun) as Hun'.
  assert (settled_but (fun s => True /\ s <> c) g') as Hset.
  { apply (open_settles fuel (fun _ => True) g c g' Hun); [|exact Hret].
    intros s _ _ Hpend. exfalso. apply Hpend. exact I. }
  assert (exists sq, cell g c = Some sq) as [sq Hc].
  { destruct fuel as [|fuel]; [discriminate|]. rewrite open_unfold in Hret.
    destruct (getitem g c) as [sq|e] eqn:Hsq; [|discriminate].
    exists sq. apply getitem_cell, Hsq. }
  pose proof (open_returns_opened fuel g c g' sq Hret Hc (Hun c sq Hc)) as Ho.
  unfold is_opened in Ho. destruct (cell g' c) as [sq'|] eqn:Hc'; [|discriminate].
  rewrite open_unfold. rewrite (proj2 (getitem_cell g' c sq') Hc'); simpl.
  rewrite (Hun' c sq' Hc'); simpl. erewrite setattr_cell by exact Hc'. simpl.
  assert (with_squares g' (dict_modify (set_opened true) (_squares g') c) = g')
    as ->.
  { rewrite dict_modify_fixed; [apply with_squares_same|].
    intros sq0 Hsq0. unfold cell in Hc'. assert (sq0 = sq') as -> by congruence.
    destruct sq' as [o m f]. simpl in Ho. subst o. reflexivity. }
  destruct (number_of_mines_around g' c) as [n|e] eqn:Hn; simpl.
  - destruct (n =? 0) eqn:Hz; [|reflexivity].
    apply Z.eqb_eq in Hz; subst n. apply for_each_skip.
    apply (Hset c).
    + unfold is_opened. rewrite Hc'. exact Ho.
    + apply zero_no_mine_around, Hn.
    + intros [_ Hne]. apply Hne. reflexivity.
  - exfalso. destruct fuel as [|fuel]; [discriminate|].
    rewrite open_unfold in Hret.
    rewrite (proj2 (getitem_cell g c sq) Hc) in Hret; simpl in Hret.
    rewrite (Hun c sq Hc) in Hret; simpl in Hret.
    erewrite setattr_cell in Hret by exact Hc. simpl in Hret.
    destruct (number_of_mines_around _ c) as [n|e'] eqn:Hn1 in Hret;
      [|discriminate].
    pose proof (opening_set_opened g c sq Hc (Hun c sq Hc)) as Hop1.
    assert (same_layout g g') as Hsame' by (eapply opening_same_layout, Hop).
    pose proof (opening_same_layout _ _ _ Hop1) as Hsame1.
    rewrite (same_layout_number_of_mines_around _ _ c Hsame1) in Hn1.
    rewrite (same_layout_number_of_mines_around _ _ c Hsame') in Hn.
    congruence.
Qed.

(** ** More recursion allowed *)

Section MoreFuel.
Variable fuel : nat.
Hypothesis open_more_rec : forall g c g',
  open fuel g c = Returns g' -> open (S fuel) g c = Returns g'.

Lemma auto_open_loop_more l : forall g g',
  for_each
    (fun g coords =>
       sq ← getitem g coords at g;
       if negb (opened sq) then open fuel g coords else Returns g)
    g l = Returns g' ->
  for_each
    (fun g coords =>
       sq ← getitem g coords at g;
       if negb (opened sq) then open (S fuel) g coords else Returns g)
    g l = Returns g'.
Proof.
  induction l as [|c l IH]; intros g g'; [trivial|].
  cbn [for_each]. destruct (getitem g c) as [sq|e]; cbn [query];
    [|discriminate].
  destruct (negb (opened sq)).
  - destruct (open fuel g c) as [g2|e g2] eqn:Hopen; cbn [and_then];
      [|discriminate].
    rewrite (open_more_rec g c g2 Hopen). cbn [and_then]. apply IH.
  - cbn [and_then]. apply IH.
Qed.
End MoreFuel.

Lemma open_more_fuel fuel : forall g c g',
  open fuel g c = Returns g' -> open (S fuel) g c = Returns g'.
Proof.
  induction fuel as [|fuel IH]; intros g c g'; [discriminate|].
  rewrite (open_unfold (S fuel)), (open_unfold fuel).
  destruct (getitem g c) as [sq|e]; cbn [query]; [|discriminate].
  destruct (if negb (flagged sq) then setattr g c (set_opened true)
            else Returns g) as [g1|e g1]; cbn [and_then]; [|discriminate].
  destruct (number_of_mines_around g1 c) as [n|e]; cbn [query]; [|discriminate].
  destruct (n =? 0); [|trivial].
  unfold auto_open, auto_open_with. apply auto_open_loop_more, IH.
Qed.

Lemma open_fuel_le fuel fuel' g c g' :
  (fuel <= fuel')%nat -> open fuel g c = Returns g' ->
  open fuel' g c = Returns g'.
Proof.
  intros Hle Hret. induction Hle as [|fuel' _ IH]; [exact Hret|].
  apply open_more_fuel, IH.
Qed.

(** ** Every grid position is reached from any other *)

Lemma grid_connected g (S : coord -> Prop) (c : coord) :
  in_grid g c = true -> S c ->
  (forall s s', S s -> s' ∈ coords_around g s -> S s') ->
  forall c', in_grid g c' = true -> S c'.
Proof.
  intros Hc HSc Hstep. destruct c as [cx cy].
  assert (forall n x y,
            Z.abs (x - cx) + Z.abs (y - cy) <= Z.of_nat n ->
            in_grid g (x, y) = true -> S (x, y)) as Hdist.
  { induction n as [|n IH]; intros x y Hd Hin.
    - assert (x = cx /\ y = cy) as [-> ->] by lia. exact HSc.
    - destruct (decide (Z.abs (x - cx) + Z.abs (y - cy) <= Z.of_nat n))
        as [Hle|Hgt]; [apply IH; assumption|].
      pose proof Hin as Hin'. pose proof Hc as Hc'.
      unfold in_grid in Hin', Hc'; simpl in Hin', Hc'.
      apply andb_true_iff in Hin' as [Hx Hy], Hc' as [Hcx Hcy].
      apply in_range_spec in Hx, Hy, Hcx, Hcy.
      apply (Hstep (x + Z.sgn (cx - x), y + Z.sgn (cy - y))).
      + apply IH; [lia|]. unfold in_grid; simpl.
        apply andb_true_iff. split; apply in_range_spec; lia.
      + apply coords_around_spec. split_and!; try lia; [exact Hin|].
        intros [= Hx' Hy']. lia. }
  intros [x y] Hin. apply (Hdist (Z.to_nat (Z.abs (x - cx) + Z.abs (y - cy))));
    [lia|exact Hin].
Qed.

(** ** A game without mines *)

Lemma fresh_unflagged w h m l g : fresh w h m l g -> unflagged g.
Proof.
  intros Hfresh c sq Hc.
  destruct (fresh_cells _ _ _ _ _ _ _ Hfresh Hc) as (_ & _ & Hf & _).
  exact Hf.
Qed.

Lemma fresh_well_formed w h m l g : fresh w h m l g -> well_formed g.
Proof.
  intros (Hw & Hh & _ & Hkeys & _). unfold well_formed. congruence.
Qed.

Lemma fresh_settled w h m l g : fresh w h m l g -> settled g.
Proof.
  intros Hfresh c Ho. unfold is_opened in Ho.
  destruct (cell g c) as [sq|] eqn:Hc; [|discriminate].
  destruct (fresh_cells _ _ _ _ _ _ _ Hfresh Hc) as (_ & Ho' & _).
  congruence.
Qed.

Lemma settled_no_mines_all_opened g c :
  well_formed g -> settled g -> (forall c', is_mine g c' = false) ->
  in_grid g c = true -> is_opened g c = true ->
  forall c' sq, cell g c' = Some sq -> opened sq = true.
Proof.
  intros Hwf Hset Hnone Hin Ho c' sq Hc'.
  assert (is_opened g c' = true) as Ho'.
  { apply (grid_connected g (fun s => is_opened g s = true) c Hin Ho).
    - intros s s' Hs Hs'. apply (Hset s Hs); [|tauto|exact Hs'].
      unfold no_mine_around. apply forallb_forall. intros n _.
      rewrite Hnone. reflexivity.
    - apply in_grid_elem_of. rewrite <- Hwf. eapply cell_is_key, Hc'. }
  unfold is_opened in Ho'. rewrite Hc' in Ho'. exact Ho'.
Qed.

Lemma no_mines_open_wins rnd w h fuel g c :
  Game_init rnd w h 0 = Ok g -> in_grid g c = true ->
  w * h <= Z.of_nat fuel ->
  exists g', open fuel g c = Returns g' /\ win g' = Ok true
    /\ forall c' sq, cell g' c' = Some sq -> opened sq = true.
Proof.
  intros Hinit Hin Hfuel. apply Game_init_fresh in Hinit as [_ [l Hfresh]].
  pose proof (fresh_unflagged _ _ _ _ _ Hfresh) as Hun.
  pose proof (fresh_well_formed _ _ _ _ _ Hfresh) as Hwf.
  pose proof Hfresh as (Hw & Hh & _ & _ & Hlen & _).
  destruct (open_returns_without_flags fuel g c Hwf Hun Hin) as [g' Hret];
    [congruence|].
  exists g'. split; [exact Hret|].
  pose proof (open_opening fuel g c) as Hop. rewrite Hret in Hop. simpl in Hop.
  pose proof (opening_same_layout _ _ _ Hop) as Hsame.
  assert (forall c', is_mine g' c' = false) as Hnone.
  { intros c'. destruct Hsame as (_ & _ & _ & _ & ->).
    unfold is_mine. destruct (cell g c') as [sq|] eqn:Hc'; [|reflexivity].
    destruct (fresh_cells _ _ _ _ _ _ _ Hfresh Hc') as (_ & _ & _ & ->).
    destruct l; [reflexivity|discriminate]. }
  assert (forall c' sq, cell g' c' = Some sq -> opened sq = true) as Hall.
  { apply (settled_no_mines_all_opened g' c).
    - eapply opening_well_formed; eassumption.
    - eapply settled_but_weaken;
        [|apply (open_settles fuel _ g c g' Hun (fresh_settled _ _ _ _ _ Hfresh)
                   Hret)].
      intros s [[] _].
    - exact Hnone.
    - unfold in_grid in *. destruct Hsame as (-> & -> & _). exact Hin.
    - assert (exists sq, cell g c = Some sq) as [sq Hc].
      { apply dict_key_get. change (c ∈ all_coords g). rewrite Hwf.
        apply in_grid_elem_of, Hin. }
      eapply open_returns_opened; [exact Hret|exact Hc|eapply Hun, Hc]. }
  split; [|exact Hall]. apply win_true_iff. split.
  - intros c' sq Hc'. right. eapply Hall, Hc'.
  - apply exploded_false_iff. intros c' sq Hc' Hm.
    specialize (Hnone c'). rewrite (is_mine_cell _ _ _ Hc') in Hnone.
    congruence.
Qed.

(** ** The only exception of [open] inside the grid *)

Section NoKeyError.
Variable fuel : nat.
Hypothesis open_raises_rec : forall g c e g',
  well_formed g -> c ∈ all_coords g -> open fuel g c = Raises e g' ->
  e = RecursionError.

Lemma auto_open_loop_raises l : forall g e g',
  well_formed g -> (forall c, c ∈ l -> c ∈ all_coords g) ->
  for_each
    (fun g coords =>
       sq ← getitem g coords at g;
       if negb (opened sq) then open fuel g coords else Returns g)
    g l = Raises e g' ->
  e = RecursionError.
Proof.
  induction l as [|c l IH]; intros g e g' Hwf Hkeys; simpl; [discriminate|].
  destruct (getitem_key g c) as [sq Hsq]; [apply Hkeys; left|].
  rewrite Hsq; simpl.
  assert (forall c', c' ∈ l -> c' ∈ all_coords g) as Hkeys'
    by (intros c' Hc'; apply Hkeys; right; exact Hc').
  destruct (opened sq); simpl; [apply IH; assumption|].
  destruct (open fuel g c) as [g2|e2 g2] eqn:Hopen; simpl.
  - pose proof (open_opening fuel g c) as Hop. rewrite Hopen in Hop.
    simpl in Hop. apply IH.
    + eapply opening_well_formed; eassumption.
    + destruct Hop as (_ & _ & _ & -> & _). exact Hkeys'.
  - intros [= <- <-]. eapply open_raises_rec; [exact Hwf| |exact Hopen].
    apply Hkeys. left.
Qed.
End NoKeyError.

Lemma open_raises fuel : forall g c e g',
  well_formed g -> c ∈ all_coords g -> open fuel g c = Raises e g' ->
  e = RecursionError.
Proof.
  induction fuel as [|fuel IH]; intros g c e g' Hwf Hkey.
  - simpl. intros [= <- _]. reflexivity.
  - rewrite open_unfold. destruct (dict_key_get _ c Hkey) as [sq Hsq].
    rewrite (proj2 (getitem_cell g c sq) Hsq); simpl.
    assert (exists g1,
      (if negb (flagged sq) then setattr g c (set_opened true) else Returns g)
      = Returns g1 /\ opening (eq c) g g1) as (g1 & -> & H1).
    { destruct (flagged sq) eqn:Hf; simpl.
      - exists g. split; [reflexivity|apply opening_refl].
      - erewrite setattr_cell by exact Hsq. eexists. split; [reflexivity|].
        eapply opening_set_opened; eassumption. }
    simpl. pose proof (opening_well_formed _ _ _ H1 Hwf) as Hwf1.
    rewrite (number_of_mines_around_returns g1 c Hwf1). simpl.
    destruct (_ =? 0); [|discriminate].
    apply auto_open_loop_raises; [exact IH|exact Hwf1|].
    intros c'. apply coords_around_keys, Hwf1.
Qed.

(** ** Clicks *)

Lemma over_returns g : exists b, over g = Ok b.
Proof. rewrite over_eq. eexists. reflexivity. Qed.

Lemma pixel_in_box (p x : Z) :
  x * SCALE <= p < x * SCALE + SCALE <-> p / SCALE = x.
Proof.
  unfold SCALE. split.
  - intros Hp. symmetry. apply (Z.div_unique p 20 x (p - x * 20)); lia.
  - intros <-. pose proof (Z.mul_div_le p 20 ltac:(lia)).
    pose proof (Z.mul_succ_div_gt p 20 ltac:(lia)). lia.
Qed.

Lemma click_target_spec g event c :
  click_target g event = Ok (Some c) <->
  over g = Ok false /\ in_grid g c = true
  /\ box_left (square_box c) <= event_x event < box_right (square_box c)
  /\ box_top (square_box c) <= event_y event < box_bottom (square_box c).
Proof.
  destruct c as [x y]. unfold click_target, square_box; simpl.
  rewrite !pixel_in_box. destruct (over_returns g) as [b ->]. simpl.
  destruct b.
  - split; [discriminate|]. intros ([= ] & _).
  - destruct (in_range (event_x event / SCALE) (width g)
              && in_range (event_y event / SCALE) (height g)) eqn:Hin.
    + split.
      * intros [= <- <-]. split_and!; try reflexivity. exact Hin.
      * intros (_ & _ & <- & <-). reflexivity.
    + split; [discriminate|]. intros (_ & Hgrid & <- & <-).
      unfold in_grid in Hgrid; simpl in Hgrid. congruence.
Qed.

Lemma click_target_returns g event : exists r, click_target g event = Ok r.
Proof.
  unfold click_target. destruct (over_returns g) as [b ->]. simpl.
  destruct b; [eexists; reflexivity|].
  destruct (_ && _); eexists; reflexivity.
Qed.

(** ** Checking an example game *)

Lemma dict_get_In d c sq : dict_get d c = Some sq -> exists k, In (k, sq) d.
Proof.
  induction d as [|[k s] d IH]; simpl; [discriminate|].
  destruct (coord_eqb k c).
  - intros [= ->]. exists k. left. reflexivity.
  - intros H. destruct (IH H) as [k' Hk']. exists k'. right. exact Hk'.
Qed.

Lemma unflagged_check g :
  forallb (fun e => negb (flagged (snd e))) (_squares g) = true -> unflagged g.
Proof.
  intros Hall c sq Hc. apply dict_get_In in Hc as [k Hk].
  rewrite forallb_forall in Hall. specialize (Hall _ Hk). simpl in Hall.
  apply negb_true_iff, Hall.
Qed.

Lemma all_closed_settled g :
  forallb (fun e => negb (opened (snd e))) (_squares g) = true -> settled g.
Proof.
  intros Hall c Ho. unfold is_opened in Ho.
  destruct (cell g c) as [sq|] eqn:Hc; [|discriminate].
  apply dict_get_In in Hc as [k Hk].
  rewrite forallb_forall in Hall. specialize (Hall _ Hk). simpl in Hall.
  rewrite Ho in Hall. discriminate.
Qed.

(** * Further results *)

(** ** Neighbours and mine counts *)

(** X1. [coords_around] yields exactly the grid positions at most one
    step away from the centre in each direction, the centre excluded; the
    centre itself need not be on the grid. *)
Theorem coords_around_neighbours (g : Game) (cx cy x y : Z) :
  (x, y) ∈ coords_around g (cx, cy) <->
  (0 <= x < width g /\ 0 <= y < height g)
  /\ (x, y) <> (cx, cy)
  /\ cx - 1 <= x <= cx + 1 /\ cy - 1 <= y <= cy + 1.
Proof.
  rewrite coords_around_spec. unfold in_grid; simpl.
  rewrite andb_true_iff, !in_range_spec. reflexivity.
Qed.

(** X2. [coords_around] yields no coordinate twice and at most eight
    coordinates. *)
Theorem coords_around_distinct (g : Game) (c : coord) :
  NoDup (coords_around g c) /\ (length (coords_around g c) <= 8)%nat.
Proof. split; [apply coords_around_NoDup|apply coords_around_length]. Qed.

(** X3. Being a neighbour is symmetric on the grid: if [coords_around]
    of a grid position yields [c'], then [coords_around] of [c'] yields
    that position. *)
Theorem coords_around_symmetric (g : Game) (c c' : coord) :
  in_grid g c = true -> c' ∈ coords_around g c -> c ∈ coords_around g c'.
Proof.
  destruct c as [cx cy], c' as [x y]. intros Hin.
  rewrite !coords_around_spec. intros (_ & Hne & Hx & Hy).
  split_and!; try lia; [exact Hin|congruence].
Qed.

Lemma coords_around_symmetric_witness :
  (0, 1) ∈ coords_around three_in_a_row (0, 2)
  /\ (0, 2) ∈ coords_around three_in_a_row (0, 1).
Proof.
  assert ((0, 1) ∈ coords_around three_in_a_row (0, 2)) as Hin
    by (apply list_elem_of_In; simpl; auto).
  split; [exact Hin|].
  apply (coords_around_symmetric three_in_a_row (0, 2) (0, 1) eq_refl Hin).
Defined.

(** X4. When [number_of_mines_around] returns, the count lies between 0
    and 8. *)
Theorem number_of_mines_around_bounds (g : Game) (c : coord) (n : Z) :
  number_of_mines_around g c = Ok n -> 0 <= n <= 8.
Proof.
  intros Hn. apply number_of_mines_around_ok in Hn as [-> _].
  pose proof (filter_length_le (is_mine g) (fun _ => true)
                (coords_around g c) ltac:(auto)) as Hle.
  assert (forall l : list coord, List.filter (fun _ => true) l = l) as Hall
    by (induction l as [|x l IH]; simpl; [|rewrite IH]; reflexivity).
  rewrite Hall in Hle. pose proof (coords_around_length g c). lia.
Qed.

Lemma number_of_mines_around_bounds_witness :
  number_of_mines_around mine_in_the_middle (0, 0) = Ok 1 /\ 0 <= 1 <= 8.
Proof.
  split; [reflexivity|].
  apply (number_of_mines_around_bounds mine_in_the_middle (0, 0) 1).
  reflexivity.
Defined.

(** X5. [open] and [toggle_flag] do not change what
    [number_of_mines_around] gives, for any coordinate and whether they
    return or raise. *)
Theorem number_of_mines_around_stable (g : Game) (c c' : coord) (fuel : nat) :
  number_of_mines_around (state_of (open fuel g c)) c'
  = number_of_mines_around g c'
  /\ number_of_mines_around (state_of (toggle_flag g c)) c'
     = number_of_mines_around g c'.
Proof.
  split; apply same_layout_number_of_mines_around.
  - eapply opening_same_layout, open_opening.
  - apply toggle_flag_same_layout.
Qed.

(** ** What [open] and [toggle_flag] change *)

(** X6. [open] changes nothing but [opened] attributes, and only from
    false to true: dimensions, mine count and keys stay, every square
    keeps its [mine] and [flagged], and an opened square stays opened. *)
Theorem open_frame (fuel : nat) (g : Game) (c : coord) :
  let g' := state_of (open fuel g c) in
  width g' = width g /\ height g' = height g /\ mines g' = mines g
  /\ all_coords g' = all_coords g
  /\ forall c' sq, cell g c' = Some sq ->
       exists sq', cell g' c' = Some sq'
         /\ mine sq' = mine sq /\ flagged sq' = flagged sq
         /\ (opened sq = true -> opened sq' = true).
Proof.
  destruct (open_opening fuel g c) as (Hw & Hh & Hm & Hkeys & Hcells).
  simpl. split_and!; try assumption. intros c' sq Hc.
  destruct (Hcells c' sq Hc) as (sq' & Hc' & Hmine & Hflag & Hkeep & _).
  exists sq'. split_and!; assumption.
Qed.

(** X7. A flag is a lock: a closed flagged square is still closed after
    any call of [open], on its own coordinate or on another one whose
    cascade reaches it. *)
Theorem flag_blocks_open (fuel : nat) (g : Game) (c c' : coord) (sq : Square) :
  cell g c' = Some sq -> flagged sq = true -> opened sq = false ->
  cell (state_of (open fuel g c)) c' = Some sq.
Proof.
  intros Hc Hf Ho.
  destruct (open_opening fuel g c) as (_ & _ & _ & _ & Hcells).
  destruct (Hcells c' sq Hc) as (sq' & Hc' & Hmine & Hflag & _ & Hnew).
  rewrite Hc'. f_equal. destruct sq as [o m f], sq' as [o' m' f'].
  simpl in *. subst. f_equal.
  destruct o'; [|reflexivity]. destruct (Hnew eq_refl eq_refl). discriminate.
Qed.

Lemma flag_blocks_open_witness :
  cell one_flag (0, 0) = Some (mkSquare false false true)
  /\ cell (state_of (open 3 one_flag (0, 1))) (0, 0)
     = Some (mkSquare false false true)
  /\ cell (state_of (open 3 one_flag (0, 1))) (0, 1)
     = Some (mkSquare true false false).
Proof.
  split; [reflexivity|]. split; [|reflexivity].
  apply (flag_blocks_open 3 one_flag (0, 1) (0, 0)); reflexivity.
Defined.

(** X8. [toggle_flag] on a key returns and changes at most the flag of
    that one square: a closed square gets its flag flipped, an opened one
    is left alone, and every other square is untouched; on a missing key
    nothing changes either. *)
Theorem toggle_flag_one_flag (g : Game) (c : coord) :
  (forall c', c' <> c -> cell (state_of (toggle_flag g c)) c' = cell g c')
  /\ (forall sq, cell g c = Some sq ->
        toggle_flag g c = Returns (state_of (toggle_flag g c))
        /\ cell (state_of (toggle_flag g c)) c
           = Some (if opened sq then sq
                   else set_flagged (negb (flagged sq)) sq))
  /\ (cell g c = None -> state_of (toggle_flag g c) = g).
Proof.
  split_and!.
  - intros c'. apply toggle_flag_elsewhere.
  - intros sq. apply toggle_flag_here.
  - intros Hc. rewrite (toggle_flag_missing g c Hc). reflexivity.
Qed.

Lemma toggle_flag_one_flag_witness :
  cell (state_of (toggle_flag three_in_a_row (0, 2))) (0, 1)
  = cell three_in_a_row (0, 1)
  /\ cell (state_of (toggle_flag three_in_a_row (0, 2))) (0, 2)
     = Some (mkSquare false true true).
Proof.
  destruct (toggle_flag_one_flag three_in_a_row (0, 2)) as (Hother & Hhere & _).
  split; [apply Hother; discriminate|].
  apply (Hhere (mkSquare false true false)). reflexivity.
Defined.

(** X9. [open] on an unflagged square opens it before anything else: the
    square is opened in the state the call leaves, even when the cascade
    ends in an exception. *)
Theorem open_opens_target (fuel : nat) (g : Game) (c : coord) (sq : Square) :
  cell g c = Some sq -> flagged sq = false ->
  cell (state_of (open (S fuel) g c)) c = Some (set_opened true sq).
Proof.
  intros Hc Hf.
  destruct (open_opens_unflagged fuel g c sq Hc Hf) as (sq' & Hc' & Ho & Hm).
  destruct (open_opening (S fuel) g c) as (_ & _ & _ & _ & Hcells).
  destruct (Hcells c sq Hc) as (sq'' & Hc'' & _ & Hflag & _).
  assert (sq'' = sq') as -> by congruence.
  rewrite Hc'. f_equal. destruct sq as [o m f], sq' as [o' m' f'].
  unfold set_opened; simpl in *. congruence.
Qed.

Lemma open_opens_target_witness :
  cell mine_in_the_middle (1, 1) = Some (mkSquare false true false)
  /\ (exists g, open 1 mine_in_the_middle (1, 1) = Raises RecursionError g)
  /\ cell (state_of (open 1 mine_in_the_middle (1, 1))) (1, 1)
     = Some (mkSquare true true false).
Proof.
  split; [reflexivity|]. split; [eexists; reflexivity|].
  apply (open_opens_target 0 mine_in_the_middle (1, 1)
           (mkSquare false true false)); reflexivity.
Defined.

(** X10. [open] on a square that is already opened, or flagged, and has
    a mine next to it returns and leaves the game exactly as it was. *)
Theorem open_changes_nothing (fuel : nat) (g : Game) (c : coord)
    (sq : Square) (n : Z) :
  cell g c = Some sq -> opened sq = true \/ flagged sq = true ->
  number_of_mines_around g c = Ok n -> n <> 0 ->
  open (S fuel) g c = Returns g.
Proof. apply open_noop. Qed.

Lemma open_changes_nothing_witness :
  toggle_flag three_in_a_row (0, 1)
  = Returns (state_of (toggle_flag three_in_a_row (0, 1)))
  /\ open 1 (state_of (toggle_flag three_in_a_row (0, 1))) (0, 1)
     = Returns (state_of (toggle_flag three_in_a_row (0, 1))).
Proof.
  split; [reflexivity|].
  apply (open_changes_nothing 0 _ (0, 1) (mkSquare false false true) 1);
    [reflexivity|right; reflexivity|reflexivity|discriminate].
Defined.

(** ** Exceptions, termination and the completed cascade *)

(** X11. On a game whose keys are the grid positions, [open] on a grid
    position raises nothing but [RecursionError]: no lookup of the cascade
    misses its key. *)
Theorem open_raises_only_recursion_error (fuel : nat) (g g' : Game)
    (c : coord) (e : exn) :
  well_formed g -> in_grid g c = true -> open fuel g c = Raises e g' ->
  e = RecursionError.
Proof.
  intros Hwf Hin. apply open_raises; [exact Hwf|].
  rewrite Hwf. apply in_grid_elem_of, Hin.
Qed.

Lemma open_raises_only_recursion_error_witness :
  well_formed one_flag /\ in_grid one_flag (0, 0) = true
  /\ open 2 one_flag (0, 0)
     = Raises RecursionError
         (mkGame 1 2 0
            [((0, 0), mkSquare false false true);
             ((0, 1), mkSquare true false false)])
  /\ RecursionError = RecursionError.
Proof.
  split; [reflexivity|]. split; [reflexivity|]. split; [reflexivity|].
  apply (open_raises_only_recursion_error 2 one_flag
           (mkGame 1 2 0
              [((0, 0), mkSquare false false true);
               ((0, 1), mkSquare true false false)])
           (0, 0) RecursionError); reflexivity.
Defined.

(** X12. On a game without flags whose keys are the grid positions,
    [open] on a grid position returns as soon as [width * height] nested
    calls are allowed. *)
Theorem open_returns_within_grid_size (fuel : nat) (g : Game) (c : coord) :
  well_formed g -> unflagged g -> in_grid g c = true ->
  width g * height g <= Z.of_nat fuel ->
  exists g', open fuel g c = Returns g'.
Proof. apply open_returns_without_flags. Qed.

Lemma open_returns_within_grid_size_witness :
  exists g', open 9 mine_in_the_middle (2, 0) = Returns g'.
Proof.
  apply (open_returns_within_grid_size 9 mine_in_the_middle (2, 0));
    [reflexivity|apply unflagged_check; reflexivity|reflexivity|].
  vm_compute. discriminate.
Defined.

(** X13. The cascade runs to completion.  In a game without flags where
    every opened square with no mine around has all its neighbours opened,
    the same holds again when [open] returns. *)
Theorem cascade_complete (fuel : nat) (g g' : Game) (c : coord) :
  unflagged g -> settled g -> open fuel g c = Returns g' -> settled g'.
Proof.
  intros Hun Hset Hret. unfold settled.
  eapply settled_but_weaken; [|apply (open_settles fuel _ g c g' Hun Hset Hret)].
  intros s [[] _].
Qed.

Lemma cascade_complete_witness :
  settled (state_of (open 3 three_in_a_row (0, 0)))
  /\ List.filter (is_opened (state_of (open 3 three_in_a_row (0, 0))))
       (all_coords three_in_a_row)
     = [(0, 0); (0, 1)].
Proof.
  split; [|reflexivity].
  apply (cascade_complete 3 three_in_a_row _ (0, 0));
    [apply unflagged_check; reflexivity|apply all_closed_settled; reflexivity|].
  reflexivity.
Defined.

(** X14. In a game without flags, once [open] on a coordinate has
    returned, calling it again on the same coordinate returns and changes
    nothing. *)
Theorem open_twice (fuel fuel' : nat) (g g' : Game) (c : coord) :
  unflagged g -> open fuel g c = Returns g' ->
  open (S fuel') g' c = Returns g'.
Proof. apply open_again. Qed.

Lemma open_twice_witness :
  open 1 (state_of (open 3 three_in_a_row (0, 0))) (0, 0)
  = Returns (state_of (open 3 three_in_a_row (0, 0))).
Proof.
  apply (open_twice 3 0 three_in_a_row _ (0, 0));
    [apply unflagged_check; reflexivity|reflexivity].
Defined.

(** X15. In a fresh game without mines, one call of [open] on any grid
    position, with [width * height] nested calls allowed, returns with every
    square opened and the game won. *)
Theorem no_mines_one_open_wins (rnd : nat -> nat) (w h : Z) (fuel : nat)
    (g : Game) (c : coord) :
  Game_init rnd w h 0 = Ok g -> in_grid g c = true ->
  w * h <= Z.of_nat fuel ->
  exists g', open fuel g c = Returns g' /\ win g' = Ok true
    /\ forall c' sq, cell g' c' = Some sq -> opened sq = true.
Proof. apply no_mines_open_wins. Qed.

Lemma no_mines_one_open_wins_witness :
  exists g', open 2 two_squares (0, 1) = Returns g' /\ win g' = Ok true.
Proof.
  destruct (no_mines_one_open_wins (always 0%nat) 1 2 2 two_squares (0, 1))
    as (g' & Hret & Hwin & _); [reflexivity|reflexivity|vm_compute; discriminate|].
  exists g'. split; assumption.
Defined.

(** X24. The recursion limit only decides whether [open] gets through:
    when the call returns under some limit, it returns the same game under
    every larger one. *)
Theorem open_result_independent_of_limit (fuel fuel' : nat) (g g' : Game)
    (c : coord) :
  (fuel <= fuel')%nat -> open fuel g c = Returns g' ->
  open fuel' g c = Returns g'.
Proof. apply open_fuel_le. Qed.

Lemma open_result_independent_of_limit_witness :
  open 1000 three_in_a_row (0, 0)
  = Returns (state_of (open 2 three_in_a_row (0, 0))).
Proof.
  apply (open_result_independent_of_limit 2 1000 three_in_a_row _ (0, 0));
    [lia|reflexivity].
Defined.

(** ** The end of a game *)

(** X16. A game that is over stays over through every further call of
    [open] and [toggle_flag], whether the call returns or raises. *)
Theorem over_is_final (g : Game) (c : coord) (fuel : nat) :
  over g = Ok true ->
  over (state_of (open fuel g c)) = Ok true
  /\ over (state_of (toggle_flag g c)) = Ok true.
Proof.
  intros Hover. split; [apply open_keeps_over|apply toggle_flag_keeps_over];
    exact Hover.
Qed.

Lemma over_is_final_witness :
  win (state_of (open 2 two_squares (0, 0))) = Ok true
  /\ over (state_of (open 2 (state_of (open 2 two_squares (0, 0))) (0, 1)))
     = Ok true.
Proof.
  split; [reflexivity|].
  apply (over_is_final (state_of (open 2 two_squares (0, 0))) (0, 1) 2).
  reflexivity.
Defined.

(** X17. [explosion_coords] never raises: it returns the first key, in
    the order of the dict, whose square is an opened mine, and [None] when
    there is none. *)
Theorem explosion_coords_first (g : Game) :
  explosion_coords g = Ok (List.find (mine_and_opened g) (all_coords g)).
Proof. apply explosion_among_find. auto. Qed.

(** X18. In every state a game passes through, the keys of the dict are
    the grid positions, each once: [__getitem__] returns on a coordinate
    inside the grid and raises [KeyError] outside. *)
Theorem reachable_keys (g : Game) (c : coord) :
  reachable g ->
  all_coords g = grid_coords (width g) (height g)
  /\ NoDup (all_coords g)
  /\ (in_grid g c = true -> exists sq, getitem g c = Ok sq)
  /\ (in_grid g c = false -> getitem g c = Raise KeyError).
Proof.
  intros Hreach. pose proof (reachable_well_formed g Hreach) as Hwf.
  destruct (well_formed_getitem g c Hwf) as [Hin Hout].
  split_and!; [exact Hwf| |exact Hin|exact Hout].
  rewrite Hwf. apply NoDup_grid_coords.
Qed.

Lemma reachable_keys_witness :
  getitem (state_of (open 2 three_in_a_row (0, 0))) (0, 3) = Raise KeyError.
Proof.
  destruct (reachable_keys (state_of (open 2 three_in_a_row (0, 0))) (0, 3))
    as (_ & _ & _ & Hout).
  - apply reachable_open. apply (reachable_init (always 2) 1 3 1). reflexivity.
  - apply Hout. reflexivity.
Defined.

(** X19. Mines never move and their number never changes: in every
    state a game passes through, the number of squares with a mine is the
    [mines] attribute, and [open] and [toggle_flag] leave the list of mined
    coordinates as it was. *)
Theorem mines_are_fixed (g : Game) (c : coord) (fuel : nat) :
  mined_coords (state_of (open fuel g c)) = mined_coords g
  /\ mined_coords (state_of (toggle_flag g c)) = mined_coords g
  /\ (reachable g -> Z.of_nat (length (mined_coords g)) = mines g).
Proof.
  split_and!.
  - eapply same_layout_mined_coords, opening_same_layout, open_opening.
  - apply same_layout_mined_coords, toggle_flag_same_layout.
  - intros Hreach. apply reachable_layout, Hreach.
Qed.

Lemma mines_are_fixed_witness :
  Z.of_nat (length (mined_coords (state_of (open 2 mine_in_the_middle (1, 1)))))
  = mines (state_of (open 2 mine_in_the_middle (1, 1))).
Proof.
  apply (proj2 (proj2 (mines_are_fixed _ (0, 0) 0))).
  apply reachable_open. apply (reachable_init (always 4) 3 3 1). reflexivity.
Defined.

(** X20. A freshly constructed game is over exactly when its mines fill
    the grid; in particular a game with fewer mines than grid positions
    starts in progress. *)
Theorem fresh_game_over_iff_full (rnd : nat -> nat) (w h m : Z) (g : Game) :
  Game_init rnd w h m = Ok g ->
  (over g = Ok true <-> m = Z.max 0 w * Z.max 0 h)
  /\ (over g = Ok false <-> m < Z.max 0 w * Z.max 0 h).
Proof.
  intros Hinit. apply Game_init_fresh in Hinit as [Hm [l Hfresh]].
  pose proof (fresh_over_iff _ _ _ _ _ Hfresh) as Hiff.
  split; [exact Hiff|]. destruct (over_returns g) as [b Hb]. rewrite Hb in *.
  destruct b.
  - split; [discriminate|]. intros Hlt.
    pose proof (proj1 Hiff eq_refl). lia.
  - split; [|reflexivity]. intros _.
    destruct (decide (m = Z.max 0 w * Z.max 0 h)) as [Heq|Hne]; [|lia].
    pose proof (proj2 Hiff Heq). discriminate.
Qed.

Lemma fresh_game_over_iff_full_witness :
  over mine_in_the_middle = Ok false /\ 1 < Z.max 0 3 * Z.max 0 3.
Proof.
  destruct (fresh_game_over_iff_full (always 4) 3 3 1 mine_in_the_middle
              eq_refl) as [_ Hprogress].
  split; [reflexivity|]. apply Hprogress. reflexivity.
Defined.

(** ** The playing area *)

(** X21. [new_game] always gets its game: [Game(30, 24, 99)] is
    constructed for every outcome of the draws, with 99 mines on 720
    squares, and it is not over, so the [update] that follows does not
    start another game. *)
Theorem new_game_in_progress (rnd : nat -> nat) :
  exists g, new_game rnd = Ok g
    /\ width g = 30 /\ height g = 24
    /\ length (all_coords g) = 720%nat
    /\ length (mined_coords g) = 99%nat
    /\ over g = Ok false.
Proof.
  unfold new_game.
  destruct (Game_init_returns rnd 30 24 99 ltac:(lia)) as (g & l & Hg & Hfresh).
  exists g. split; [exact Hg|].
  pose proof Hfresh as (Hw & Hh & _ & Hkeys & Hlen & _).
  destruct (fresh_mined_coords _ _ _ _ _ Hfresh) as [_ Hperm].
  split_and!; try assumption.
  - rewrite Hkeys. pose proof (length_grid_coords 30 24). lia.
  - rewrite (Permutation_length Hperm). lia.
  - destruct (over_returns g) as [b Hb]. rewrite Hb. destruct b; [|reflexivity].
    pose proof (proj1 (fresh_over_iff _ _ _ _ _ Hfresh) Hb). lia.
Qed.

(** X22. A click is dispatched to a square exactly when the game is not
    over, the square is on the grid and the pointer is inside the rectangle
    that [_draw_square] draws for it (right and bottom edges excluded);
    otherwise the click is ignored, and the dispatch never raises. *)
Theorem click_hits_drawn_square (g : Game) (event : Event) (c : coord) :
  (click_target g event = Ok (Some c) <->
   over g = Ok false /\ in_grid g c = true
   /\ box_left (square_box c) <= event_x event < box_right (square_box c)
   /\ box_top (square_box c) <= event_y event < box_bottom (square_box c))
  /\ exists r, click_target g event = Ok r.
Proof. split; [apply click_target_spec|apply click_target_returns]. Qed.

(** X23. What a click dispatches never misses its key: on a game whose
    keys are the grid positions, [toggle_flag] on the clicked square
    returns, and [open] on it raises nothing but [RecursionError]. *)
Theorem click_never_misses (g : Game) (event : Event) (c : coord) :
  well_formed g -> click_target g event = Ok (Some c) ->
  (exists g', toggle_flag g c = Returns g')
  /\ forall fuel e g', open fuel g c = Raises e g' -> e = RecursionError.
Proof.
  intros Hwf Hclick. apply click_target_spec in Hclick as (_ & Hin & _).
  assert (c ∈ all_coords g) as Hkey
    by (rewrite Hwf; apply in_grid_elem_of, Hin).
  split.
  - destruct (dict_key_get _ c Hkey) as [sq Hsq].
    destruct (toggle_flag_here g c sq Hsq) as [Hret _]. eexists. exact Hret.
  - intros fuel e g'. apply open_raises; assumption.
Qed.

Lemma click_never_misses_witness :
  click_target mine_in_the_middle (mkEvent 59 20) = Ok (Some (2, 1))
  /\ exists g', toggle_flag mine_in_the_middle (2, 1) = Returns g'.
Proof.
  split; [reflexivity|].
  apply (click_never_misses mine_in_the_middle (mkEvent 59 20) (2, 1));
    reflexivity.
Defined.
